(** * tlpipe: beam response and visibility conditioning

    A shallow embedding of two pieces of tlpipe:

    - [TlArray]: the dish and cylinder beam models of
      [tlpipe/core/tl_array.py];
    - [PlotWaterfall]: the computation of [vis1] from [vis] in
      [Plot.plot] of [tlpipe/plot/plot_waterfall.py] (lines 124-141),
      which the specification calls the visibility conditioner.

    The two modules hold the definitions; [TlArrayFacts] and
    [PlotWaterfallFacts] hold what is proved about them.

    Conventions.  The beam model is plain arithmetic on [float64] arrays
    plus [np.sinc]; it is embedded over the real numbers, every numpy
    operation standing for the exact operation it rounds (rounding,
    overflow and not-a-number propagation are outside this model).  The
    conditioner only moves samples around, so its samples are pairs of
    binary64 floats (a [complex64] array holds those that are binary32
    numbers, and rounds what is stored into it), its arrays live in a
    store addressed by locations, and Python exceptions are results of a
    small state-and-error monad. *)

From Stdlib Require Import Reals Lra Floats Uint63.
From stdpp Require Import gmap strings list.

(** ** tlpipe/core/tl_array.py *)

Module TlArray.

Local Open Scope R_scope.

(** [np.sinc]: the normalised sinc, with the value 1 at 0. *)
Definition sinc (x : R) : R :=
  if Req_dec_T x 0 then 1 else sin (PI * x) / (PI * x).

(** A direction, [np.array(xyz)] for one coordinate triple. *)
Definition vec3 : Type := R * R * R.

(** [np.dot] of two vectors of length three. *)
Definition dot (a b : vec3) : R :=
  let '(a0, a1, a2) := a in
  let '(b0, b1, b2) := b in
  a0 * b0 + a1 * b1 + a2 * b2.

(** A two-dimensional array, as the list of its rows.  [np.array([freqs])]
    has the single row [freqs]. *)
Definition array2 : Type := list (list R).

(** An elementwise operation on a two-dimensional array. *)
Definition elementwise (f : R -> R) (a : array2) : array2 := map (map f) a.

Section Beams.

(** [const.c], the speed of light in m/s; the [constants] module is not
    part of the sources at hand, so its value stays a parameter. *)
Variable c : R.

(** What [ap.fit.Beam2DGaussian.__init__] stores. *)
Record Beam2DGaussian : Type := MkBeam2DGaussian {
  gauss_freqs : array2;
  xwidth : array2;
  ywidth : array2
}.

(** [lmbda = const.c / (1.0e9 * freqs)], for [freqs] in GHz (lines 25
    and 80). *)
Definition wavelength (freqs : array2) : array2 :=
  elementwise (fun f => c / (1.0e9 * f)) freqs.

(** [DsihBeam.__init__(self, freqs, diameter)]. *)
Definition DsihBeam_init (freqs : list R) (diameter : R) : Beam2DGaussian :=
  let freqs := elementwise (fun f => 1.0e-3 * f) [freqs] in
  let lmbda := wavelength freqs in
  let xwidth := elementwise (fun l => 1.22 * l / diameter) lmbda in
  let ywidth := xwidth in
  MkBeam2DGaussian freqs xwidth ywidth.

(** The default [diameter=6.0]. *)
Definition default_diameter : R := 6.0.

(** The attributes of a [CylinderBeam]: [ap.fit.Beam.__init__] stores
    [freqs], the constructor itself [width] and [length]. *)
Record CylinderBeam : Type := MkCylinderBeam {
  freqs : array2;
  width : R;
  length : R
}.

(** [CylinderBeam.__init__(self, freqs, width, length)]. *)
Definition CylinderBeam_init (freqs : list R) (width length : R)
  : CylinderBeam :=
  let freqs := elementwise (fun f => 1.0e-3 * f) [freqs] in
  MkCylinderBeam freqs width length.

(** The defaults [width=15.0, length=40.0]. *)
Definition default_width : R := 15.0.
Definition default_length : R := 40.0.

(** [CylinderBeam.response(self, xyz)] for one direction [xyz]: the
    result has the shape of [self.freqs], one row with one response per
    frequency. *)
Definition response (self : CylinderBeam) (xyz : vec3) : array2 :=
  let vec_n := xyz in
  let vec_z := (0, 0, 1) in
  let nz := dot vec_n vec_z in
  let vec_u := (1, 0, 0) in
  let vec_v := (0, 1, 0) in
  let nu := dot vec_n vec_u in
  let nv := dot vec_n vec_v in
  let lmbda := wavelength (freqs self) in
  let nz := if Rle_dec nz 0 then 0 else nz in
  let factor := 1.0e-60 in
  elementwise
    (fun l => sinc (width self * nu / l) * sinc (factor * nv / l) * nz)
    lmbda.

End Beams.

(** The response of one direction at one wavelength [l]. *)
Definition point_response (Wd l : R) (n : vec3) : R :=
  let '(x, y, z) := n in
  sinc (Wd * x / l) * sinc (1.0e-60 * y / l) * (if Rle_dec z 0 then 0 else z).

(** *** Several directions at once *)

(** numpy's broadcasting of a one-dimensional array [u] against one row [v]
    of a two-dimensional array, for an elementwise operation [f]: equal
    lengths go entry by entry, a length of one is stretched, and anything
    else raises [ValueError] ([None]). *)
Definition broadcast {A B C : Type} (f : A -> B -> C) (u : list A) (v : list B)
  : option (list C) :=
  if Nat.eqb (List.length u) (List.length v) then Some (zip_with f u v)
  else match u, v with
       | [a], _ => Some (map (f a) v)
       | _, [b] => Some (map (fun a => f a b) u)
       | _, _ => None
       end.

(** The same against every row of a two-dimensional array. *)
Definition broadcast_rows {A B C : Type} (f : A -> B -> C) (u : list A)
  (a : list (list B)) : option (list (list C)) :=
  mapM (broadcast f u) a.

(** [CylinderBeam.response(self, xyz)] for [xyz] an array of directions,
    one per row: [nz], [nu] and [nv] are one-dimensional, and every
    operation with the two-dimensional [lmbda] broadcasts. *)
Definition response_directions (c : R) (self : CylinderBeam) (xyz : list vec3)
  : option array2 :=
  let vec_n := xyz in
  let vec_z := (0, 0, 1) in
  let nz := map (fun n => dot n vec_z) vec_n in
  let vec_u := (1, 0, 0) in
  let vec_v := (0, 1, 0) in
  let nu := map (fun n => dot n vec_u) vec_n in
  let nv := map (fun n => dot n vec_v) vec_n in
  let lmbda := wavelength c (freqs self) in
  let nz := map (fun r => if Rle_dec r 0 then 0 else r) nz in
  let factor := 1.0e-60 in
  a1 ← broadcast_rows (fun wnu l => wnu / l) (map (fun r => width self * r) nu) lmbda;
  a2 ← broadcast_rows (fun fnv l => fnv / l) (map (fun r => factor * r) nv) lmbda;
  broadcast_rows (fun r p => p * r) nz
    (zip_with (zip_with Rmult) (elementwise sinc a1) (elementwise sinc a2)).

End TlArray.

(** ** tlpipe/plot/plot_waterfall.py, [Plot.plot], lines 124-141 *)

Module PlotWaterfall.

(** *** Samples and arrays *)

(** A [complex128] sample: two binary64 floats. *)
Record complex : Type := Complex { real : float; imag : float }.

(** [complex(np.nan, np.nan)]. *)
Definition complex_nan : complex := Complex nan nan.

(** Complex arithmetic as numpy's loops do it on [complex128]: a real
    operand is promoted to a complex one with imaginary part 0. *)
Definition of_real (x : float) : complex := Complex x 0.

Definition cadd (a b : complex) : complex :=
  Complex (real a + real b) (imag a + imag b).

Definition cmul (a b : complex) : complex :=
  Complex (real a * real b - imag a * imag b)
          (real a * imag b + imag a * real b).

(** [1.0J]. *)
Definition J : complex := Complex 0 1.

(** [re + 1.0J * im] for two floats. *)
Definition recombine (re im : float) : complex :=
  cadd (of_real re) (cmul J (of_real im)).

(** The complex dtypes of numpy with binary32 and with binary64 parts. *)
Inductive dtype : Type := complex64 | complex128.

(** The conversion of a binary64 float to binary32, as the cast of a
    [float64] to a [float32] does it: to the nearest, ties to even, past
    the largest binary32 number to infinity.  The result is a binary32
    number, held as the binary64 float it is. *)
Definition float32 (x : float) : float :=
  match Prim2SF x with
  | S754_finite s m e =>
      match binary_round 24 128 s m e with
      | S754_finite s' m' e' => SF2Prim (binary_round 53 1024 s' m' e')
      | r => SF2Prim r
      end
  | _ => x
  end.

(** What an assignment into an array of dtype [d] stores for the
    [complex128] value [s]. *)
Definition cast_to (d : dtype) (s : complex) : complex :=
  match d with
  | complex128 => s
  | complex64 => Complex (float32 (real s)) (float32 (imag s))
  end.

(** A two-dimensional numpy array: its second dimension and its rows, each
    of that length ([rectangular]); the first dimension is the number of
    rows. *)
Record ndarray (A : Type) : Type := NdArray {
  shape1 : nat;
  rows : list (list A)
}.
Arguments NdArray {A} _ _.
Arguments shape1 {A} _.
Arguments rows {A} _.

Definition shape0 {A} (a : ndarray A) : nat := length (rows a).

Definition size {A} (a : ndarray A) : nat := shape0 a * shape1 a.

Definition rectangular {A} (a : ndarray A) : Prop :=
  Forall (fun r => length r = shape1 a) (rows a).

(** [a[t, f]], when both indices are in range. *)
Definition get {A} (a : ndarray A) (t f : nat) : option A :=
  rows a !! t ≫= (.!! f).

(** *** Exceptions and results *)

(** A Python exception, by the name of its class. *)
Inductive exn : Type := Exception (cls : string).

Definition IndexError : exn := Exception "IndexError".
Definition MaskError : exn := Exception "MaskError".
Definition TypeError : exn := Exception "TypeError".

(** Sequencing of computations that may raise. *)
Definition ebind {A B} (m : exn + A) (k : A -> exn + B) : exn + B :=
  match m with
  | inl e => inl e
  | inr a => k a
  end.

Notation "'try!' x ':=' m 'in' k" := (ebind m (fun x => k))
  (at level 10, x name, m at level 100, k at level 200).

(** *** Index arrays and indexing *)

(** [np.where(b)[0]]: the indices at which [b] holds, in increasing
    order. *)
Fixpoint nonzero_from (i : nat) (b : list bool) : list nat :=
  match b with
  | [] => []
  | x :: b' => if x then i :: nonzero_from (S i) b' else nonzero_from (S i) b'
  end.

Definition np_where (b : list bool) : list nat := nonzero_from 0 b.

(** [np.logical_not]. *)
Definition logical_not (b : list bool) : list bool := negb <$> b.

Definition in_range (n : nat) (idx : list nat) : bool :=
  forallb (fun t => t <? n) idx.

(** [a[idx] = v] for an index array [idx] and a scalar [v]: every indexed
    row is filled with [v]; an index past the first dimension raises
    [IndexError] and leaves the array as it was. *)
Definition setitem_rows {A} (a : ndarray A) (idx : list nat) (v : A)
  : exn + ndarray A :=
  if in_range (shape0 a) idx
  then inr (NdArray (shape1 a)
              (foldl (fun rs t => <[t := replicate (shape1 a) v]> rs) (rows a) idx))
  else inl IndexError.

(** [a[idx, f]] for an index array [idx]: a new one-dimensional array of
    the indexed entries of column [f]. *)
Definition getitem_col {A} (a : ndarray A) (idx : list nat) (f : nat)
  : exn + list A :=
  match mapM (fun t => get a t f) idx with
  | Some ys => inr ys
  | None => inl IndexError
  end.

(** [a[idx, f] = vals], entry [k] of [vals] going to row [idx[k]]. *)
Definition setitem_col {A} (a : ndarray A) (idx : list nat) (f : nat)
  (vals : list A) : exn + ndarray A :=
  if in_range (shape0 a) idx && (f <? shape1 a)
  then inr (NdArray (shape1 a)
              (foldl (fun rs tv => alter (<[f := tv.2]>) tv.1 rs) (rows a)
                 (zip idx vals)))
  else inl IndexError.

(** *** The store *)

(** Arrays are objects in a store; a variable holds a location. *)
Abbreviation loc := positive.

Inductive object : Type :=
  | ComplexArray (d : dtype) (a : ndarray complex)
  | BoolArray (m : ndarray bool).

Abbreviation heap := (gmap loc object).

(** What [vis1] is bound to: an array, or a masked array made of a data
    array and a mask array. *)
Inductive value : Type :=
  | Array (l : loc)
  | MaskedArray (data mask : loc).

(** Computations on the store that may raise. *)
Definition M (A : Type) : Type := heap -> heap * (exn + A).

Definition ret {A} (a : A) : M A := fun h => (h, inr a).

Definition raise {A} (e : exn) : M A := fun h => (h, inl e).

Definition bind {A B} (m : M A) (k : A -> M B) : M B :=
  fun h =>
    match m h with
    | (h', inl e) => (h', inl e)
    | (h', inr a) => k a h'
    end.

Notation "'let*' x ':=' m 'in' k" := (bind m (fun x => k))
  (at level 10, x name, m at level 100, k at level 200).

(** Reading the array a variable is bound to, with its dtype.  The
    model has complex visibilities and boolean masks only: a location that
    holds no array of the expected kind stands for an argument outside the
    model, and the computation stops there with [TypeError] (what numpy
    does with a visibility array that is not complex is not modelled). *)
Definition load_complex (l : loc) : M (dtype * ndarray complex) :=
  fun h =>
    match h !! l with
    | Some (ComplexArray d a) => (h, inr (d, a))
    | _ => (h, inl TypeError)
    end.

Definition load_bool (l : loc) : M (ndarray bool) :=
  fun h =>
    match h !! l with
    | Some (BoolArray m) => (h, inr m)
    | _ => (h, inl TypeError)
    end.

Definition store (l : loc) (o : object) : M unit :=
  fun h => (<[l := o]> h, inr tt).

Definition alloc (o : object) : M loc :=
  fun h => let l := fresh (dom h) in (<[l := o]> h, inr l).

(** [vis.copy()]. *)
Definition copy (l : loc) : M loc :=
  let* a := load_complex l in alloc (ComplexArray a.1 a.2).

(** An assignment into the array at [l]; what it stores depends on the
    dtype of the array. *)
Definition setitem (l : loc)
  (f : dtype -> ndarray complex -> exn + ndarray complex) : M unit :=
  let* a := load_complex l in
  match f a.1 a.2 with
  | inl e => raise e
  | inr a' => store l (ComplexArray a.1 a')
  end.

(** [for x in xs: body(x)]. *)
Fixpoint for_ {A} (xs : list A) (body : A -> M unit) : M unit :=
  match xs with
  | [] => ret tt
  | x :: xs' => let* _ := body x in for_ xs' body
  end.

(** *** [np.ma.array(data, mask=mask)] *)

Definition same_shape {A B} (a : ndarray A) (b : ndarray B) : bool :=
  (shape0 a =? shape0 b) && (shape1 a =? shape1 b).

(** [np.resize] of a one-element array to [n0] rows of length [n1]. *)
Definition resize_one {A} (m : ndarray A) (n0 n1 : nat) : ndarray A :=
  match concat (rows m) with
  | x :: _ => NdArray n1 (replicate n0 (replicate n1 x))
  | [] => NdArray n1 []
  end.

(** [np.reshape] to [n0] rows of length [n1], in row-major order. *)
Definition reshape {A} (m : ndarray A) (n0 n1 : nat) : ndarray A :=
  NdArray n1 ((fun i => take n1 (drop (i * n1) (concat (rows m)))) <$> seq 0 n0).

(** The masked array shares [data]; it shares [mask] too when the shapes
    agree, and otherwise numpy resizes a one-element mask, reshapes a mask
    of the same size, or raises [MaskError]. *)
Definition np_ma_array (data mask : loc) : M value :=
  let* data_array := load_complex data in
  let d := data_array.2 in
  let* m := load_bool mask in
  if same_shape m d then ret (MaskedArray data mask)
  else if size m =? 1 then
    let* mask' := alloc (BoolArray (resize_one m (shape0 d) (shape1 d))) in
    ret (MaskedArray data mask')
  else if size m =? size d then
    let* mask' := alloc (BoolArray (reshape m (shape0 d) (shape1 d))) in
    ret (MaskedArray data mask')
  else raise MaskError.

(** *** The parameters read by lines 124-141 *)

Record params : Type := Params {
  flag_mask : bool;
  flag_ns : bool;
  interpolate_ns : bool
}.

(** The defaults of [params_init]. *)
Definition params_init : params := Params false false false.

Section Conditioner.

(** [scipy.interpolate.InterpolatedUnivariateSpline(x, y)], called with
    the defaults (degree 3): it either raises or returns the spline, a
    function of the abscissa.  scipy is outside the repository, so the
    class is a parameter of the model. *)
Variable InterpolatedUnivariateSpline :
  list nat -> list float -> exn + (nat -> float).

(** The body of the loop of lines 134-137 for the channel [fi] of an
    array of dtype [d]; [itp_real(on) + 1.0J * itp_imag(on)] is
    elementwise and [complex128], and the assignment casts it to [d]. *)
Definition interpolate_channel (d : dtype) (on off : list nat) (fi : nat)
  (vis1 : ndarray complex) : exn + ndarray complex :=
  try! ys_real := getitem_col vis1 off fi in
  try! itp_real := InterpolatedUnivariateSpline off (real <$> ys_real) in
  try! ys_imag := getitem_col vis1 off fi in
  try! itp_imag := InterpolatedUnivariateSpline off (imag <$> ys_imag) in
  setitem_col vis1 on fi
    (cast_to d <$> zip_with recombine (itp_real <$> on) (itp_imag <$> on)).

(** Lines 124-141 of [Plot.plot]: the value bound to [vis1].  [ts] is
    the container, of which only the boolean dataset ['ns_on'] is read. *)
Definition plot_vis1 (self : params) (ts : gmap string (list bool))
  (vis vis_mask : loc) : M value :=
  if flag_mask self then
    np_ma_array vis vis_mask
  else if flag_ns self then
    match ts !! "ns_on"%string with
    | Some ns_on =>
        let* vis1 := copy vis in
        let on := np_where ns_on in
        if negb (interpolate_ns self) then
          let* _ := setitem vis1
                      (fun d a => setitem_rows a on (cast_to d complex_nan)) in
          ret (Array vis1)
        else
          let off := np_where (logical_not ns_on) in
          let* a := load_complex vis1 in
          let* _ := for_ (seq 0 (shape1 a.2))
                      (fun fi => setitem vis1
                                   (fun d => interpolate_channel d on off fi)) in
          ret (Array vis1)
    | None => ret (Array vis)
    end
  else ret (Array vis).

End Conditioner.

(** *** A stand-in for the interpolator *)

Definition float_of_nat (n : nat) : float :=
  of_uint63 (Uint63.of_Z (Z.of_nat n)).

(** The piecewise-linear function through the points [(xs, ys)], continued
    along the first and the last segment. *)
Fixpoint linear_through (xs : list nat) (ys : list float) (t : nat) : float :=
  match xs, ys with
  | x0 :: ((x1 :: xs'') as xs'), y0 :: ((y1 :: _) as ys') =>
      if (t <=? x1) || (length xs'' =? 0)
      then (y0 + (y1 - y0) * (float_of_nat t - float_of_nat x0)
                 / (float_of_nat x1 - float_of_nat x0))%float
      else linear_through xs' ys' t
  | _, y0 :: _ => y0
  | _, [] => nan
  end.

(** A stand-in with the interface of scipy's class, used to run the model
    on concrete inputs.  Like the class at degree 3 it refuses fewer than
    four points (FITPACK wants more points than the degree, and the
    wrapper raises its own [error]); unlike it, what it returns is
    piecewise linear. *)
Definition linear_spline (x : list nat) (y : list float)
  : exn + (nat -> float) :=
  if length x <=? 3 then inl (Exception "dfitpack.error")
  else inr (linear_through x y).

(** *** Concrete inputs *)

(** An array of [nt] times and [nf] channels, a ramp in time on every
    channel. *)
Definition ramp (nt nf : nat) : ndarray complex :=
  NdArray nf
    ((fun t => (fun f => Complex (float_of_nat (t + 10 * f)) (float_of_nat (2 * t)))
               <$> seq 0 nf) <$> seq 0 nt).

(** The scenario of ten times and four channels, the noise source on at
    every third time. *)
Definition scenario_ns_on : list bool :=
  [true; false; false; true; false; false; true; false; false; true].

Definition scenario_ts : gmap string (list bool) :=
  {[ "ns_on"%string := scenario_ns_on ]}.

Definition scenario_heap : heap :=
  {[ 1%positive := ComplexArray complex128 (ramp 10 4);
     2%positive := BoolArray (NdArray 4 (replicate 10 (replicate 4 false))) ]}.

(** Four times of which three are off: one point fewer than a cubic
    spline needs. *)
Definition short_ns_on : list bool := [true; false; false; false].

Definition short_ts : gmap string (list bool) :=
  {[ "ns_on"%string := short_ns_on ]}.

Definition short_heap : heap :=
  {[ 1%positive := ComplexArray complex128 (ramp 4 1);
     2%positive := BoolArray (NdArray 1 (replicate 4 [false])) ]}.

(** Six times of one channel, the noise source on at the times 1 and 2:
    the line through the off samples at the times 0 and 3 has the value
    one third at the time 1, which is no binary32 number. *)
Definition thirds_ns_on : list bool := [false; true; true; false; false; false].

Definition thirds_ts : gmap string (list bool) :=
  {[ "ns_on"%string := thirds_ns_on ]}.

Definition thirds : ndarray complex :=
  NdArray 1 [ [Complex 0 0]; [Complex 9 9]; [Complex 9 9];
              [Complex 1 0]; [Complex 1 0]; [Complex 1 0] ].

Definition thirds_heap (d : dtype) : heap :=
  {[ 1%positive := ComplexArray d thirds;
     2%positive := BoolArray (NdArray 1 (replicate 6 [false])) ]}.

(** *** Notions used to state the facts below *)

(** Writing a column: [write_col f g idx rs] is what [a[idx, f] = vals]
    leaves in the rows [rs] when entry [k] of [vals] is [g (idx[k])]. *)
Definition write_col {A} (f : nat) (g : nat → A) (idx : list nat)
  (rs : list (list A)) : list (list A) :=
  foldl (fun rs t => alter (<[f := g t]>) t rs) rs idx.

Definition cell {A} (rs : list (list A)) (t f : nat) : option A :=
  rs !! t ≫= (.!! f).

(** What a loop of assignments into one array leaves in it, and how it
    ends. *)
Fixpoint iterate (F : nat → ndarray complex → exn + ndarray complex)
  (chans : list nat) (a : ndarray complex) : ndarray complex * (exn + unit) :=
  match chans with
  | [] => (a, inr tt)
  | fi :: chans' =>
      match F fi a with
      | inl e => (a, inl e)
      | inr a' => iterate F chans' a'
      end
  end.

(** The interpolants of channel [fi] of the array [a], for an interpolator
    [spline] and the abscissae [off]: the splines through the real and
    through the imaginary parts of the samples of the channel at [off]. *)
Definition interpolants (spline : list nat -> list float -> exn + (nat -> float))
  (off : list nat) (a : ndarray complex) (fi : nat)
  (itp_real itp_imag : nat -> float) : Prop :=
  exists ys, getitem_col a off fi = inr ys /\
             spline off (real <$> ys) = inr itp_real /\
             spline off (imag <$> ys) = inr itp_imag.

(** What the loop stores at the time [t] of a channel with these
    interpolants, in an array of dtype [d]. *)
Definition stored (d : dtype) (itp_real itp_imag : nat -> float) (t : nat)
  : complex :=
  cast_to d (recombine (itp_real t) (itp_imag t)).

(** *** The words of the specification *)

(** Two floats that are the same number, the two zeros being one number,
    or that are both not a number. *)
Definition same_number (x y : float) : Prop :=
  (x =? y)%float = true ∨ (is_nan x = true ∧ is_nan y = true).

(** [idx] lists, in increasing order, the times at which the indicator
    [b] has the value [v]. *)
Definition times_where (b : list bool) (v : bool) (idx : list nat) : Prop :=
  (∀ t, t ∈ idx ↔ b !! t = Some v) ∧
  (∀ i j x y, idx !! i = Some x → idx !! j = Some y → i < j → x < y).

(** [ys] holds the samples of the channel [fi] of [a] at the times [idx],
    in their order. *)
Definition samples_at (a : ndarray complex) (fi : nat) (idx : list nat)
  (ys : list complex) : Prop :=
  Forall2 (fun t y => get a t fi = Some y) idx ys.

(** *** The baseline of a plot ([Plot.plot], lines 108-122) *)




(** The parameter [bl_incl]: ['all'] or a list of pairs of feeds. *)
Inductive baselines : Type :=
  | All
  | Listed (l : list (Z * Z)).

(** [{f1, f2}], and [set(bl)] for a baseline of two feeds. *)
Definition feed_set (p : Z * Z) : gset Z := {[ p.1; p.2 ]}.

(** Lines 117-122: whether [plot] returns before it plots anything. *)
Definition baseline_skipped (bl : Z * Z) (bl_incl : baselines)
  (bl_excl : list (Z * Z)) : bool :=
  match bl_incl with
  | All => false
  | Listed incl =>
      let bl1 := feed_set bl in
      let bl_incl := feed_set <$> incl in
      let bl_excl := feed_set <$> bl_excl in
      negb (bool_decide (bl1 ∈ bl_incl)) || bool_decide (bl1 ∈ bl_excl)
  end.

(** *** Masking bad times and frequencies ([process] of [PlotMeerKAT],
    [PlotTimeStream] and [CheckSpec]) *)

Definition ValueError : exn := Exception "ValueError".

(** A mask with the axes time and frequency first: a two-dimensional
    array whose cells hold the entries along the remaining axes. *)
Abbreviation mask := (ndarray (list bool)).

(** A Python slice: start, stop and step, each an integer or [None]. *)
Record slice : Type := Slice {
  start : option Z;
  stop : option Z;
  step : option Z
}.

(** [slice] applied to the entries of a tuple [args] of integers or
    [None]. *)
Definition slice_of (args : list (option Z)) : exn + slice :=
  match args with
  | [b] => inr (Slice None b None)
  | [a; b] => inr (Slice a b None)
  | [a; b; s] => inr (Slice a b s)
  | _ => inl TypeError
  end.

(** How a slice adjusts a given bound to an axis of [len] entries: a
    negative bound counts from the end, and a bound past either end is
    clipped. *)
Definition adjust (len step i : Z) : Z :=
  if (i <? 0)%Z then
    if (i + len <? 0)%Z then (if (step <? 0)%Z then -1 else 0)%Z
    else (i + len)%Z
  else if (len <=? i)%Z then (if (step <? 0)%Z then len - 1 else len)%Z
  else i.

(** [s.indices(len)]: the start, the stop and the step of the range the
    slice selects; a step of 0 raises [ValueError]. *)
Definition slice_indices (s : slice) (len : Z) : exn + (Z * Z * Z) :=
  let step := default 1%Z (step s) in
  if (step =? 0)%Z then inl ValueError
  else
    let start :=
      match start s with
      | Some i => adjust len step i
      | None => if (step <? 0)%Z then (len - 1)%Z else 0%Z
      end in
    let stop :=
      match stop s with
      | Some i => adjust len step i
      | None => if (step <? 0)%Z then (-1)%Z else len
      end in
    inr (start, stop, step).

(** The number of entries of [range(start, stop, step)]. *)
Definition range_length (start stop step : Z) : Z :=
  if (step <? 0)%Z then
    if (stop <? start)%Z then ((start - stop - 1) / (- step) + 1)%Z else 0%Z
  else
    if (start <? stop)%Z then ((stop - start - 1) / step + 1)%Z else 0%Z.

(** The indices a slice selects on an axis of [len] entries. *)
Definition selected (s : slice) (len : nat) : exn + list nat :=
  try! r := slice_indices s (Z.of_nat len) in
  let '(start, stop, step) := r in
  inr ((fun i => Z.to_nat (start + Z.of_nat i * step))
       <$> seq 0 (Z.to_nat (range_length start stop step))).

(** [m[sl, ...] = True] and [m[:, sl, ...] = True] for the indices [sel]
    a slice selects. *)
Definition mask_times (m : mask) (sel : list nat) : mask :=
  NdArray (shape1 m)
    (foldl (fun rs t => alter (map (map (fun _ => true))) t rs) (rows m) sel).

Definition mask_freqs (m : mask) (sel : list nat) : mask :=
  NdArray (shape1 m)
    (map (fun row => foldl (fun r f => alter (map (fun _ => true)) f r) row sel)
       (rows m)).

(** The loop over [bad_time_list], which sets [ts.vis_mask] to [True] on
    the slice made from each tuple [bad_time]: the mask it leaves, and how
    it ends. *)
Fixpoint mask_bad_times (bad_time_list : list (list (option Z))) (m : mask)
  : mask * (exn + unit) :=
  match bad_time_list with
  | [] => (m, inr tt)
  | bad_time :: rest =>
      match (try! sl := slice_of bad_time in selected sl (shape0 m)) with
      | inl e => (m, inl e)
      | inr sel => mask_bad_times rest (mask_times m sel)
      end
  end.

Fixpoint mask_bad_freqs (bad_freq_list : list (list (option Z))) (m : mask)
  : mask * (exn + unit) :=
  match bad_freq_list with
  | [] => (m, inr tt)
  | bad_freq :: rest =>
      match (try! sl := slice_of bad_freq in selected sl (shape1 m)) with
      | inl e => (m, inl e)
      | inr sel => mask_bad_freqs rest (mask_freqs m sel)
      end
  end.

(** The masking at the head of [process]: the bad times, then the bad
    frequencies, each list being [None] or a list of tuples.  (What the
    loops print is left out.) *)
Definition mask_bad (bad_time_list bad_freq_list : option (list (list (option Z))))
  (m : mask) : mask * (exn + unit) :=
  let '(m1, r1) :=
    match bad_time_list with
    | Some l => mask_bad_times l m
    | None => (m, inr tt)
    end in
  match r1 with
  | inl e => (m1, inl e)
  | inr _ =>
      match bad_freq_list with
      | Some l => mask_bad_freqs l m1
      | None => (m1, inr tt)
      end
  end.

(** *** Cutting to the good samples ([PlotMeerKAT.plot], lines 356-366,
    and [PlotVvsTime.plot], lines 605-615) *)

(** [np.all(vis_mask, axis=(1, 2))] and [np.all(vis_mask, axis=(0, 2))]. *)
Definition all_true (cells : list (list bool)) : bool :=
  forallb (forallb (fun b => b)) cells.

Definition bad_times (vis_mask : mask) : list bool :=
  all_true <$> rows vis_mask.

Definition bad_freqs (vis_mask : mask) : list bool :=
  (fun f => all_true (omap (fun row => row !! f) (rows vis_mask)))
  <$> seq 0 (shape1 vis_mask).

(** [np.argwhere(~bad)[0, 0]] and [np.argwhere(~bad)[-1, 0]]. *)
Definition first_good (bad : list bool) : exn + nat :=
  match np_where (logical_not bad) with
  | i :: _ => inr i
  | [] => inl IndexError
  end.

Definition last_good (bad : list bool) : exn + nat :=
  match last (np_where (logical_not bad)) with
  | Some i => inr i
  | None => inl IndexError
  end.

(** [l[st:ed]] for two indices that are not negative. *)
Definition slice_list {A} (st ed : nat) (l : list A) : list A :=
  take (ed - st) (drop st l).

(** Lines 356-366: [vis1] cut to the times and to the frequencies between
    the first and the last that are not bad. *)
Definition cut_to_good {A} (vis_mask : mask) (vis1 : ndarray A)
  : exn + ndarray A :=
  let bad_time := bad_times vis_mask in
  let bad_freq := bad_freqs vis_mask in
  try! good_time_st := first_good bad_time in
  try! good_time_ed := last_good bad_time in
  let vis1 := NdArray (shape1 vis1)
                (slice_list good_time_st good_time_ed (rows vis1)) in
  try! good_freq_st := first_good bad_freq in
  try! good_freq_ed := last_good bad_freq in
  inr (NdArray (Nat.min good_freq_ed (shape1 vis1)
                - Nat.min good_freq_st (shape1 vis1))
         (slice_list good_freq_st good_freq_ed <$> rows vis1)).

(** *** The limits of the time axis ([PlotVvsTime.plot], lines 605-627) *)

(** [min([xmin, self.xmin])] and [max([xmax, self.xmax])]: the second
    entry replaces the first when it is smaller, or larger. *)
Definition min_of_pair (x y : float) : float := if (y <? x)%float then y else x.

Definition max_of_pair (x y : float) : float := if (x <? y)%float then y else x.

(** [x_axis[0]] and [x_axis[-1]]. *)
Definition first_entry {A} (l : list A) : exn + A :=
  match head l with
  | Some x => inr x
  | None => inl IndexError
  end.

Definition last_entry {A} (l : list A) : exn + A :=
  match last l with
  | Some x => inr x
  | None => inl IndexError
  end.

(** The new [self.xmin] and [self.xmax]: [x_axis] is cut to the good
    times, the frequencies are cut too, the polarisations 0 and 1 of
    [vis1] are taken to be drawn ([n_pol] is the length of its third
    axis), and a limit that is [None] in the parameters is read off the
    ends of the cut axis.  (What is drawn is left out.) *)
Definition x_limits (xmin xmax : option float) (self_xmin self_xmax : float)
  (vis_mask : mask) (n_pol : nat) (x_axis : list float)
  : exn + (float * float) :=
  let bad_time := bad_times vis_mask in
  let bad_freq := bad_freqs vis_mask in
  try! good_time_st := first_good bad_time in
  try! good_time_ed := last_good bad_time in
  let x_axis := slice_list good_time_st good_time_ed x_axis in
  try! good_freq_st := first_good bad_freq in
  try! good_freq_ed := last_good bad_freq in
  try! _ := (if n_pol <? 2 then inl IndexError else inr tt) in
  try! xmin := match xmin with Some v => inr v | None => first_entry x_axis end in
  try! xmax := match xmax with Some v => inr v | None => last_entry x_axis end in
  inr (min_of_pair xmin self_xmin, max_of_pair xmax self_xmax).

(** A mask of two times, two frequencies and two polarisations in which
    only the time 1 has unmasked entries. *)
Definition one_good_time : mask :=
  NdArray 2 [ [[true; true]; [true; true]]; [[false; false]; [false; false]] ].

(** *** Notions used to state the facts about masks *)

(** One entry of a mask: time [t], frequency [f], place [k] along the
    remaining axes. *)
Definition entry (m : mask) (t f k : nat) : option bool :=
  get m t f ≫= (.!! k).

(** The index [i] of an axis of [n] entries lies in the slice made from
    one of the tuples of the list [l]. *)
Definition hit (l : list (list (option Z))) (n i : nat) : Prop :=
  ∃ tuple sl sel,
    tuple ∈ l ∧ slice_of tuple = inr sl ∧ selected sl n = inr sel ∧ i ∈ sel.

(** The same for a list that may be [None]. *)
Definition hit_opt (l : option (list (list (option Z)))) (n i : nat) : Prop :=
  match l with
  | Some l => hit l n i
  | None => False
  end.

(** What a masking step does to the entries: those at the places [P]
    become [True], the others stay. *)
Definition masks_where (P : nat → nat → Prop) (m m' : mask) : Prop :=
  shape0 m' = shape0 m ∧ shape1 m' = shape1 m ∧
  ∀ t f k,
    (is_Some (entry m' t f k) ↔ is_Some (entry m t f k)) ∧
    (entry m' t f k = Some true ↔
     is_Some (entry m t f k) ∧ (entry m t f k = Some true ∨ P t f)).

(** Every entry stays where it is, and what is [True] stays [True]. *)
Definition keeps_masked (m m' : mask) : Prop :=
  shape0 m' = shape0 m ∧ shape1 m' = shape1 m ∧
  ∀ t f k,
    (is_Some (entry m' t f k) ↔ is_Some (entry m t f k)) ∧
    (entry m t f k = Some true → entry m' t f k = Some true).

(** A time, or a frequency, with an entry that is not masked: one that
    [np.all] does not report as bad. *)
Definition good_time (m : mask) (t : nat) : Prop :=
  t < shape0 m ∧ ∃ f k, entry m t f k = Some false.

Definition good_freq (m : mask) (f : nat) : Prop :=
  f < shape1 m ∧ ∃ t k, entry m t f k = Some false.

(** A tuple that [slice] accepts and that selects on every axis: one to
    three entries, the third of them not 0. *)
Definition slice_tuple_ok (tuple : list (option Z)) : Prop :=
  1 ≤ length tuple ≤ 3 ∧ tuple !! 2 ≠ Some (Some 0%Z).

(** A mask of four times and four frequencies with one entry along the
    remaining axis: the time 0 and the frequency 0 are masked throughout. *)
Definition edge_mask : mask :=
  NdArray 4 [ [[true]; [true]; [true]; [true]];
              [[true]; [false]; [false]; [false]];
              [[true]; [false]; [false]; [false]];
              [[true]; [false]; [false]; [false]] ].

(** An array of four times and four frequencies, the entry at time [t]
    and frequency [f] being [10 * t + f]. *)
Definition grid : ndarray nat :=
  NdArray 4 ((fun t => (fun f => 10 * t + f) <$> seq 0 4) <$> seq 0 4).

End PlotWaterfall.

(** ** Facts about tlpipe/core/tl_array.py *)

Module TlArrayFacts.

Import TlArray.

Local Open Scope R_scope.

(** *** Facts about the beam models *)

Lemma elementwise_elementwise (f g : R -> R) (a : array2) :
  elementwise g (elementwise f a) = elementwise (fun r => g (f r)) a.
Proof.
  unfold elementwise. rewrite map_map. apply map_ext. intros row.
  apply map_map.
Qed.

Lemma elementwise_ext (f g : R -> R) (a : array2) :
  (forall r, f r = g r) -> elementwise f a = elementwise g a.
Proof.
  intros Hfg. unfold elementwise. apply map_ext. intros row.
  apply map_ext. exact Hfg.
Qed.

Lemma elementwise_Forall (P : R -> Prop) (f : R -> R) (a : array2) :
  (forall r, P (f r)) -> Forall (Forall P) (elementwise f a).
Proof.
  intros HP. unfold elementwise.
  induction a as [|row a IH]; constructor; [|exact IH].
  induction row as [|r row IHrow]; constructor; [apply HP | exact IHrow].
Qed.

(** The dot products with the three axes pick the coordinates. *)
Lemma dot_axes (x y z : R) :
  dot (x, y, z) (1, 0, 0) = x /\ dot (x, y, z) (0, 1, 0) = y
  /\ dot (x, y, z) (0, 0, 1) = z.
Proof. unfold dot. repeat split; ring. Qed.

(** A frequency in MHz, scaled to GHz and then by [1.0e9], is in Hz. *)
Lemma GHz_to_Hz (f : R) : 1.0e9 * (1.0e-3 * f) = f * 1e6.
Proof. lra. Qed.

Lemma sinc_0 : sinc 0 = 1.
Proof. unfold sinc. destruct (Req_dec_T 0 0) as [_|Hne]; [reflexivity|]. now destruct Hne. Qed.

Lemma sinc_nonzero (x : R) : x <> 0 -> sinc x = sin (PI * x) / (PI * x).
Proof. intros Hx. unfold sinc. destruct (Req_dec_T x 0) as [Heq|_]; [now destruct Hx | reflexivity]. Qed.

(** [|sin u| <= |u|], from the strict bounds of the library on each side
    of 0. *)
Lemma Rabs_sin_le (u : R) : Rabs (sin u) <= Rabs u.
Proof.
  destruct (Rtotal_order u 0) as [Hneg | [Hzero | Hpos]].
  - pose proof (sin_gt_x u Hneg) as Hlow.
    rewrite (Rabs_left u Hneg).
    apply Rabs_le. split; [lra|].
    destruct (Rle_dec (-1) u) as [Hsmall | Hbig].
    + assert (sin u < 0) by (apply sin_lt_0_var; [pose proof PI_RGT_0; pose proof PI2_1; lra | exact Hneg]).
      lra.
    + pose proof (SIN_bound u). lra.
  - subst u. rewrite sin_0. lra.
  - pose proof (sin_lt_x u Hpos) as Hup.
    rewrite (Rabs_right u) by lra.
    apply Rabs_le. split; [|lra].
    destruct (Rle_dec u 1) as [Hsmall | Hbig].
    + assert (0 < sin u) by (apply sin_gt_0; [exact Hpos | pose proof PI2_1; pose proof PI_RGT_0; lra]).
      lra.
    + pose proof (SIN_bound u). lra.
Qed.

(** The normalised sinc never exceeds 1 in magnitude. *)
Lemma Rabs_sinc_le_1 (x : R) : Rabs (sinc x) <= 1.
Proof.
  destruct (Req_dec_T x 0) as [Hx | Hx].
  - subst x. rewrite sinc_0, Rabs_R1. lra.
  - rewrite (sinc_nonzero x Hx).
    assert (Hu : PI * x <> 0).
    { pose proof PI_RGT_0. apply Rmult_integral_contrapositive_currified; lra. }
    unfold Rdiv. rewrite Rabs_mult, Rabs_inv.
    pose proof (Rabs_pos_lt _ Hu) as Hpos.
    pose proof (Rabs_sin_le (PI * x)) as Hsin.
    apply (Rmult_le_reg_r (Rabs (PI * x))); [exact Hpos|].
    rewrite Rmult_assoc, Rinv_l by lra. lra.
Qed.

(** The response of a beam to one direction, entry by entry. *)
Lemma response_unfold (c : R) (self : CylinderBeam) (x y z : R) :
  response c self (x, y, z) =
  elementwise
    (fun f => sinc (width self * x / (c / (1.0e9 * f)))
              * sinc (1.0e-60 * y / (c / (1.0e9 * f)))
              * (if Rle_dec z 0 then 0 else z))
    (freqs self).
Proof.
  unfold response, wavelength.
  destruct (dot_axes x y z) as (-> & -> & ->).
  apply elementwise_elementwise.
Qed.

(** C1.  For every direction [(x, y, z)] and every configured frequency [f]
    (in MHz), [CylinderBeam.response] is
    [sinc (Wd * x / lambda) * sinc (epsilon * y / lambda) * nz'] with
    [lambda = c / (f in Hz)], [epsilon = 1e-60], and [nz'] equal to [z]
    above the horizon and to 0 on or below it; in particular the response
    is 0 at every configured frequency when [z <= 0]. *)
Theorem response_masked_sinc_product (c : R) (fs : list R) (Wd L x y z : R) :
  exists nz' : R,
    (0 < z -> nz' = z) /\ (z <= 0 -> nz' = 0) /\
    response c (CylinderBeam_init fs Wd L) (x, y, z) =
      [ map (fun f => sinc (Wd * x / (c / (f * 1e6)))
                      * sinc (1e-60 * y / (c / (f * 1e6))) * nz') fs ] /\
    (z <= 0 ->
     response c (CylinderBeam_init fs Wd L) (x, y, z) = [ map (fun _ => 0) fs ]).
Proof.
  exists (if Rle_dec z 0 then 0 else z).
  assert (Hresp : response c (CylinderBeam_init fs Wd L) (x, y, z) =
    [ map (fun f => sinc (Wd * x / (c / (f * 1e6)))
                    * sinc (1e-60 * y / (c / (f * 1e6)))
                    * (if Rle_dec z 0 then 0 else z)) fs ]).
  { rewrite response_unfold. unfold CylinderBeam_init. cbn [freqs width].
    rewrite elementwise_elementwise. unfold elementwise. cbn [map].
    f_equal. apply map_ext. intros f. rewrite GHz_to_Hz.
    replace 1.0e-60 with 1e-60 by lra. reflexivity. }
  split; [|split; [|split]].
  - intros Hz. destruct (Rle_dec z 0) as [Hle|Hgt]; [exfalso; lra | reflexivity].
  - intros Hz. destruct (Rle_dec z 0) as [Hle|Hgt]; [reflexivity | contradiction].
  - exact Hresp.
  - intros Hz. rewrite Hresp. f_equal. apply map_ext. intros f.
    destruct (Rle_dec z 0); [ring | contradiction].
Qed.

(** The bounds of the scenario, for any value of the speed of light between
    2.997e8 and 3.0e8 m/s. *)
Lemma dish_scenario_bounds (c : R) :
  2.997e8 <= c <= 3.0e8 ->
  Rabs (c / (1.0e9 * (1.0e-3 * 750)) - 0.4) < 0.001 /\
  Rabs (1.22 * (c / (1.0e9 * (1.0e-3 * 750))) / 6.0 - 0.0813) < 0.0001.
Proof.
  intros Hc.
  assert (E : 1.0e9 * (1.0e-3 * 750) = 750000000) by lra.
  rewrite E.
  split; apply Rabs_def1; lra.
Qed.

(** C8.  [DsihBeam.__init__] computes, for each configured frequency [f]
    (in MHz), the wavelength [lambda = c / (f in Hz)] and the half-width
    [1.22 * lambda / diameter], and uses the latter for both axes; for the
    frequencies 700, 750 and 800 MHz and a 6 m dish the wavelength at
    750 MHz is within 0.001 of 0.4 m and the half-width within 0.0001 of
    0.0813 rad, for a speed of light between 2.997e8 and 3.0e8 m/s. *)
Theorem dish_beam_widths (c : R) (fs : list R) (diameter : R)
  (Hc : 2.997e8 <= c <= 3.0e8) :
  xwidth (DsihBeam_init c fs diameter) =
    [ map (fun f => 1.22 * (c / (f * 1e6)) / diameter) fs ] /\
  ywidth (DsihBeam_init c fs diameter) = xwidth (DsihBeam_init c fs diameter) /\
  exists l700 l750 l800 w700 w750 w800 : R,
    wavelength c (gauss_freqs (DsihBeam_init c [700; 750; 800] 6.0)) =
      [ [l700; l750; l800] ] /\
    xwidth (DsihBeam_init c [700; 750; 800] 6.0) = [ [w700; w750; w800] ] /\
    ywidth (DsihBeam_init c [700; 750; 800] 6.0) = [ [w700; w750; w800] ] /\
    w750 = 1.22 * l750 / 6.0 /\
    Rabs (l750 - 0.4) < 0.001 /\ Rabs (w750 - 0.0813) < 0.0001.
Proof.
  split; [|split].
  - unfold DsihBeam_init, wavelength. cbn [xwidth].
    rewrite !elementwise_elementwise. unfold elementwise. cbn [map].
    f_equal. apply map_ext. intros f. now rewrite GHz_to_Hz.
  - reflexivity.
  - destruct (dish_scenario_bounds c Hc) as [Hl Hw].
    do 6 eexists.
    unfold DsihBeam_init, wavelength, elementwise. cbn [map xwidth ywidth gauss_freqs].
    split; [reflexivity|]. split; [reflexivity|]. split; [reflexivity|].
    split; [reflexivity|]. split; [exact Hl | exact Hw].
Qed.

Lemma dish_beam_widths_witness :
  2.997e8 <= 299792458 <= 3.0e8 /\
  xwidth (DsihBeam_init 299792458 [700; 750; 800] default_diameter) =
    [ map (fun f => 1.22 * (299792458 / (f * 1e6)) / default_diameter)
          [700; 750; 800] ].
Proof.
  assert (Hc : 2.997e8 <= 299792458 <= 3.0e8) by lra.
  split; [exact Hc|].
  exact (proj1 (dish_beam_widths 299792458 [700; 750; 800] default_diameter Hc)).
Defined.

(** C9.  For a unit direction vector the magnitude of every entry of
    [CylinderBeam.response] is at most 1: either sinc factor is at most 1
    in magnitude and the masked [nz] lies between 0 and 1. *)
Theorem response_magnitude_le_1 (c : R) (self : CylinderBeam) (x y z : R)
  (Hunit : x * x + y * y + z * z = 1) :
  Forall (Forall (fun r => Rabs r <= 1)) (response c self (x, y, z)).
Proof.
  rewrite response_unfold. apply elementwise_Forall. intros f.
  set (s1 := sinc _). set (s2 := sinc _).
  pose proof (Rabs_sinc_le_1 (width self * x / (c / (1.0e9 * f)))) as H1.
  pose proof (Rabs_sinc_le_1 (1.0e-60 * y / (c / (1.0e9 * f)))) as H2.
  fold s1 in H1. fold s2 in H2.
  assert (Hz : 0 <= (if Rle_dec z 0 then 0 else z) <= 1).
  { destruct (Rle_dec z 0); [lra|]. split; [lra|]. nra. }
  rewrite !Rabs_mult.
  rewrite (Rabs_right (if Rle_dec z 0 then 0 else z)) by lra.
  pose proof (Rabs_pos s1). pose proof (Rabs_pos s2).
  assert (Rabs s1 * Rabs s2 <= 1) by nra.
  nra.
Qed.

Lemma response_magnitude_le_1_witness :
  0 * 0 + 0 * 0 + 1 * 1 = 1 /\
  Forall (Forall (fun r => Rabs r <= 1))
    (response 299792458 (CylinderBeam_init [700; 750; 800] default_width default_length)
       (0, 0, 1)).
Proof.
  assert (Hunit : 0 * 0 + 0 * 0 + 1 * 1 = 1) by ring.
  split; [exact Hunit|].
  exact (response_magnitude_le_1 299792458 _ 0 0 1 Hunit).
Defined.

(** *** More about the cylinder beam *)

Lemma sinc_even (x : R) : sinc (- x) = sinc x.
Proof.
  destruct (Req_dec_T x 0) as [->|Hx].
  - now rewrite Ropp_0.
  - assert (Hnx : - x <> 0) by (intros H; apply Hx; lra).
    rewrite (sinc_nonzero x Hx), (sinc_nonzero (- x) Hnx).
    replace (PI * - x) with (- (PI * x)) by ring.
    rewrite sin_neg. unfold Rdiv. rewrite Rinv_opp. ring.
Qed.

Lemma response_point (c : R) (self : CylinderBeam) (n : vec3) :
  response c self n =
  elementwise (fun f => point_response (width self) (c / (1.0e9 * f)) n) (freqs self).
Proof. destruct n as [[x y] z]. apply response_unfold. Qed.

(** X1.  Towards the zenith the response is 1 at every configured
    frequency, whatever the width and the frequencies. *)
Theorem response_zenith (c : R) (self : CylinderBeam) :
  response c self (0, 0, 1) = elementwise (fun _ => 1) (freqs self).
Proof.
  rewrite response_unfold. apply elementwise_ext. intros f.
  replace (width self * 0 / (c / (1.0e9 * f))) with 0 by (unfold Rdiv; ring).
  replace (1.0e-60 * 0 / (c / (1.0e9 * f))) with 0 by (unfold Rdiv; ring).
  rewrite sinc_0. destruct (Rle_dec 1 0) as [Hle|_]; [exfalso; lra | ring].
Qed.

(** X2.  The response is the same for a direction and for its mirror
    images East-West and North-South. *)
Theorem response_mirror (c : R) (self : CylinderBeam) (x y z : R) :
  response c self (- x, y, z) = response c self (x, y, z) /\
  response c self (x, - y, z) = response c self (x, y, z).
Proof.
  rewrite !response_unfold. split; apply elementwise_ext; intros f.
  - replace (width self * - x / (c / (1.0e9 * f)))
      with (- (width self * x / (c / (1.0e9 * f)))) by (unfold Rdiv; ring).
    now rewrite sinc_even.
  - replace (1.0e-60 * - y / (c / (1.0e9 * f)))
      with (- (1.0e-60 * y / (c / (1.0e9 * f)))) by (unfold Rdiv; ring).
    now rewrite sinc_even.
Qed.

(** *** Several directions at once *)

Lemma broadcast_same_length {A B C : Type} (f : A -> B -> C)
  (u : list A) (v : list B) :
  List.length u = List.length v -> broadcast f u v = Some (zip_with f u v).
Proof.
  intros Hlen. unfold broadcast.
  now rewrite (proj2 (Nat.eqb_eq _ _) Hlen).
Qed.

Lemma broadcast_one_column {A B C : Type} (f : A -> B -> C) (u : list A) (b : B) :
  broadcast f u [b] = Some (map (fun a => f a b) u).
Proof. destruct u as [|a [|a' u]]; reflexivity. Qed.

Lemma broadcast_mismatch {A B C : Type} (f : A -> B -> C)
  (u : list A) (v : list B) :
  List.length u <> List.length v -> List.length u <> 1%nat ->
  List.length v <> 1%nat -> broadcast f u v = None.
Proof.
  intros Hne Hu Hv. unfold broadcast.
  rewrite (proj2 (Nat.eqb_neq _ _) Hne).
  destruct u as [|a [|a' u]]; destruct v as [|b [|b' v]]; simpl in *;
    try reflexivity; exfalso; auto.
Qed.

(** X4.  With one configured frequency, the response to an array of
    directions has one row, with the response of each direction in
    turn. *)
Theorem response_directions_one_frequency (c f Wd L : R) (xyz : list vec3) :
  response_directions c (CylinderBeam_init [f] Wd L) xyz =
  Some [ map (point_response Wd (c / (f * 1e6))) xyz ].
Proof.
  unfold response_directions, CylinderBeam_init, wavelength, elementwise,
    broadcast_rows.
  cbn [freqs width map mapM].
  rewrite !broadcast_one_column. cbn [mbind option_bind mret option_ret map zip_with].
  rewrite GHz_to_Hz. cbn [mapM].
  rewrite broadcast_same_length.
  - cbn [mbind option_bind mret option_ret]. do 2 f_equal.
    induction xyz as [|[[x y] z] xyz IH]; cbn [map zip_with]; [reflexivity|].
    f_equal; [|exact IH].
    destruct (dot_axes x y z) as (-> & -> & ->). reflexivity.
  - repeat (rewrite ?length_map, ?length_zip_with). lia.
Qed.

(** X5.  With as many directions as configured frequencies, the response
    pairs them: entry [j] of its one row is the response of direction [j]
    at frequency [j], and no other combination is computed. *)
Theorem response_directions_pairs (c Wd L : R) (fs : list R) (xyz : list vec3)
  (Hlen : List.length xyz = List.length fs) :
  response_directions c (CylinderBeam_init fs Wd L) xyz =
  Some [ zip_with (fun n f => point_response Wd (c / (f * 1e6)) n) xyz fs ].
Proof.
  unfold response_directions, CylinderBeam_init, wavelength, elementwise,
    broadcast_rows.
  cbn [freqs width map mapM].
  rewrite !broadcast_same_length by (rewrite !length_map; exact Hlen).
  cbn [mbind option_bind mret option_ret map zip_with mapM].
  rewrite broadcast_same_length.
  - cbn [mbind option_bind mret option_ret]. do 2 f_equal.
    revert fs Hlen.
    induction xyz as [|[[x y] z] xyz IH]; intros [|f fs] Hlen;
      cbn [map zip_with]; try reflexivity; try discriminate.
    f_equal; [|apply IH; now injection Hlen].
    destruct (dot_axes x y z) as (-> & -> & ->). rewrite GHz_to_Hz. reflexivity.
  - repeat (rewrite ?length_map, ?length_zip_with). lia.
Qed.

Lemma response_directions_pairs_witness :
  response_directions 299792458 (CylinderBeam_init [700; 750] 15.0 40.0)
    [(0, 0, 1); (1, 0, 0)] =
  Some [ zip_with (fun n f => point_response 15.0 (299792458 / (f * 1e6)) n)
           [(0, 0, 1); (1, 0, 0)] [700; 750] ].
Proof.
  exact (response_directions_pairs 299792458 15.0 40.0 [700; 750]
           [(0, 0, 1); (1, 0, 0)] eq_refl).
Defined.

(** X6.  With several directions and several configured frequencies in
    different numbers, the response raises (the arrays do not
    broadcast). *)
Theorem response_directions_mismatch (c Wd L : R) (fs : list R) (xyz : list vec3)
  (Hne : List.length xyz <> List.length fs)
  (Hxyz : List.length xyz <> 1%nat)
  (Hfs : List.length fs <> 1%nat) :
  response_directions c (CylinderBeam_init fs Wd L) xyz = None.
Proof.
  unfold response_directions, CylinderBeam_init, wavelength, elementwise,
    broadcast_rows.
  cbn [freqs width map mapM].
  rewrite !broadcast_mismatch by (rewrite !length_map; assumption).
  reflexivity.
Qed.

Lemma response_directions_mismatch_witness :
  response_directions 299792458 (CylinderBeam_init [700; 750] 15.0 40.0)
    [(0, 0, 1); (1, 0, 0); (0, 1, 0)] = None.
Proof.
  apply response_directions_mismatch; simpl; lia.
Defined.

(** *** More about the dish beam *)

(** X7.  For a positive speed of light and a positive diameter, the
    half-width at a higher frequency is never larger than at a lower one,
    and is never negative: the dish beam does not widen as the frequency
    grows.  (Over the reals the inequalities are strict; they are stated
    as the rounded arithmetic of the code keeps them.) *)
Theorem dish_beam_never_widens (c diameter : R) (fs : list R) (i j : nat)
  (f1 f2 : R)
  (Hc : 0 < c) (Hd : 0 < diameter)
  (Hi : fs !! i = Some f1) (Hj : fs !! j = Some f2)
  (Hf : 0 < f1 <= f2) :
  exists w1 w2 : R,
    xwidth (DsihBeam_init c fs diameter) !! 0%nat ≫= (.!! i) = Some w1 /\
    xwidth (DsihBeam_init c fs diameter) !! 0%nat ≫= (.!! j) = Some w2 /\
    0 <= w2 <= w1.
Proof.
  unfold DsihBeam_init, wavelength. cbn [xwidth].
  rewrite !elementwise_elementwise. unfold elementwise. cbn [map].
  cbn [lookup list_lookup mbind option_bind].
  change (map ?g fs) with (g <$> fs).
  rewrite !list_lookup_fmap, Hi, Hj. cbn [fmap option_fmap option_map].
  do 2 eexists. split; [reflexivity|]. split; [reflexivity|].
  rewrite !GHz_to_Hz.
  assert (H1 : 0 < f1 * 1e6) by lra.
  assert (H2 : 0 < f2 * 1e6) by lra.
  assert (Hinv : / (f2 * 1e6) <= / (f1 * 1e6)) by (apply Rinv_le_contravar; nra).
  pose proof (Rinv_0_lt_compat _ H2) as Hpos.
  pose proof (Rinv_0_lt_compat _ Hd) as Hdpos.
  unfold Rdiv.
  assert (0 < 1.22 * c * / diameter) by (apply Rmult_lt_0_compat; lra).
  split; nra.
Qed.

Lemma dish_beam_never_widens_witness :
  exists w1 w2 : R,
    xwidth (DsihBeam_init 299792458 [700; 750; 800] 6.0) !! 0%nat ≫= (.!! 0%nat)
      = Some w1 /\
    xwidth (DsihBeam_init 299792458 [700; 750; 800] 6.0) !! 0%nat ≫= (.!! 2%nat)
      = Some w2 /\
    0 <= w2 <= w1.
Proof.
  apply (dish_beam_never_widens 299792458 6.0 [700; 750; 800] 0 2 700 800).
  - lra.
  - lra.
  - reflexivity.
  - reflexivity.
  - lra.
Defined.

End TlArrayFacts.

(** ** Facts about lines 124-141 of [Plot.plot] *)

Module PlotWaterfallFacts.

Import PlotWaterfall.

(** *** Index arrays *)

Lemma elem_of_nonzero_from (i : nat) (b : list bool) (t : nat) :
  t ∈ nonzero_from i b ↔ i ≤ t ∧ b !! (t - i) = Some true.
Proof.
  revert i. induction b as [|x b IH]; intros i; simpl.
  - rewrite elem_of_nil. split; [tauto | intros [_ H]; discriminate].
  - assert (Hrest : t ∈ nonzero_from (S i) b ↔ i < t ∧ b !! (t - S i) = Some true).
    { rewrite IH. split; intros [? ?]; (split; [lia | done]). }
    destruct (decide (t = i)) as [->|Hne].
    + replace (i - i) with 0 by lia. simpl.
      destruct x; [rewrite elem_of_cons | ]; rewrite ?Hrest.
      * split; [intros _; split; [lia | done] | intros _; by left].
      * split; [intros [? _]; lia | intros [_ ?]; discriminate].
    + destruct (decide (i ≤ t)) as [Hle|Hgt].
      * replace (t - i) with (S (t - S i)) by lia. simpl.
        destruct x; [rewrite elem_of_cons | ]; rewrite Hrest.
        -- split; [intros [?|[? ?]]; [done | split; [lia | done]]
                  | intros [_ ?]; right; split; [lia | done]].
        -- split; intros [? ?]; (split; [lia | done]).
      * destruct x; [rewrite elem_of_cons | ]; rewrite Hrest;
          (split; [intros; exfalso; intuition lia | intros [? _]; lia]).
Qed.

Lemma elem_of_np_where (b : list bool) (t : nat) :
  t ∈ np_where b ↔ b !! t = Some true.
Proof.
  unfold np_where. rewrite elem_of_nonzero_from.
  replace (t - 0) with t by lia. split; [by intros [_ ?] | intros; split; [lia | done]].
Qed.

Lemma elem_of_np_where_not (b : list bool) (t : nat) :
  t ∈ np_where (logical_not b) ↔ b !! t = Some false.
Proof.
  rewrite elem_of_np_where. unfold logical_not. rewrite list_lookup_fmap.
  destruct (b !! t) as [[|]|]; simpl; split; intros; congruence.
Qed.

Lemma nonzero_from_head (i : nat) (b : list bool) (x : nat) (l : list nat) (t : nat) :
  nonzero_from i b = x :: l → t ∈ l → x < t.
Proof.
  revert i. induction b as [|y b IH]; intros i; simpl; [done|].
  destruct y; [|apply IH].
  intros [= <- <-] Ht. apply elem_of_nonzero_from in Ht. lia.
Qed.

(** The index array lists its indices in increasing order. *)
Lemma nonzero_from_increasing (i0 : nat) (b : list bool) (i j x y : nat) :
  nonzero_from i0 b !! i = Some x → nonzero_from i0 b !! j = Some y →
  i < j → x < y.
Proof.
  revert i0 i j. induction b as [|v b IH]; intros i0 i j; simpl; [done|].
  destruct v; [|apply IH].
  destruct j as [|j]; [lia|]. destruct i as [|i]; simpl.
  - intros [= <-] Hy _.
    apply (nonzero_from_head i0 (true :: b) i0 (nonzero_from (S i0) b));
      [done | by eapply list_elem_of_lookup_2].
  - intros Hx Hy Hij. apply (IH (S i0) i j); [done | done | lia].
Qed.

Lemma times_where_np_where (b : list bool) : times_where b true (np_where b).
Proof.
  split; [apply elem_of_np_where | apply nonzero_from_increasing].
Qed.

Lemma times_where_np_where_not (b : list bool) :
  times_where b false (np_where (logical_not b)).
Proof.
  split; [apply elem_of_np_where_not | apply nonzero_from_increasing].
Qed.

(** Two increasing lists with the same entries are one list. *)
Lemma increasing_ext (l1 l2 : list nat) :
  (∀ i j x y, l1 !! i = Some x → l1 !! j = Some y → i < j → x < y) →
  (∀ i j x y, l2 !! i = Some x → l2 !! j = Some y → i < j → x < y) →
  (∀ x, x ∈ l1 ↔ x ∈ l2) → l1 = l2.
Proof.
  revert l2. induction l1 as [|a l1 IH]; intros [|b l2] Hinc1 Hinc2 Hsame.
  - done.
  - exfalso. apply (elem_of_nil b). apply Hsame, elem_of_cons. by left.
  - exfalso. apply (elem_of_nil a). apply Hsame, elem_of_cons. by left.
  - assert (Hlt1 : ∀ x, x ∈ l1 → a < x).
    { intros x Hx. apply list_elem_of_lookup in Hx as [k Hk].
      apply (Hinc1 0 (S k)); [done | done | lia]. }
    assert (Hlt2 : ∀ x, x ∈ l2 → b < x).
    { intros x Hx. apply list_elem_of_lookup in Hx as [k Hk].
      apply (Hinc2 0 (S k)); [done | done | lia]. }
    assert (Hab : a = b).
    { assert (Ha : a ∈ b :: l2) by (apply Hsame, elem_of_cons; by left).
      assert (Hb : b ∈ a :: l1) by (apply Hsame, elem_of_cons; by left).
      apply elem_of_cons in Ha as [?|Ha]; [done|].
      apply elem_of_cons in Hb as [?|Hb]; [done|].
      apply Hlt2 in Ha. apply Hlt1 in Hb. lia. }
    subst b. f_equal. apply IH.
    + intros i j x y Hx Hy Hij. apply (Hinc1 (S i) (S j)); [done | done | lia].
    + intros i j x y Hx Hy Hij. apply (Hinc2 (S i) (S j)); [done | done | lia].
    + intros x. split; intros Hx.
      * assert (Hin : x ∈ a :: l2) by (apply Hsame, elem_of_cons; by right).
        apply elem_of_cons in Hin as [->|?]; [|done]. apply Hlt1 in Hx. lia.
      * assert (Hin : x ∈ a :: l1) by (apply Hsame, elem_of_cons; by right).
        apply elem_of_cons in Hin as [->|?]; [|done]. apply Hlt2 in Hx. lia.
Qed.

(** The index arrays of the code are the lists of the specification. *)
Lemma times_where_on (b : list bool) (idx : list nat) :
  times_where b true idx → idx = np_where b.
Proof.
  intros [Hin Hinc]. destruct (times_where_np_where b) as [Hin' Hinc'].
  apply increasing_ext; [done | done |]. intros x. by rewrite Hin, Hin'.
Qed.

Lemma times_where_off (b : list bool) (idx : list nat) :
  times_where b false idx → idx = np_where (logical_not b).
Proof.
  intros [Hin Hinc]. destruct (times_where_np_where_not b) as [Hin' Hinc'].
  apply increasing_ext; [done | done |]. intros x. by rewrite Hin, Hin'.
Qed.

(** No time index is both on and off. *)
Lemma on_off_disjoint (b : list bool) (t : nat) :
  t ∈ np_where b → t ∉ np_where (logical_not b).
Proof.
  rewrite elem_of_np_where, elem_of_np_where_not. congruence.
Qed.

Lemma np_where_lt (b : list bool) (t : nat) : t ∈ np_where b → t < length b.
Proof.
  rewrite elem_of_np_where. intros H. apply lookup_lt_is_Some. eauto.
Qed.

Lemma in_range_spec (n : nat) (idx : list nat) :
  in_range n idx = true ↔ ∀ t, t ∈ idx → t < n.
Proof.
  unfold in_range. rewrite <- Is_true_true, forallb_True, Forall_forall.
  split; intros H t Ht; specialize (H t Ht).
  - apply Is_true_true in H. by apply Nat.ltb_lt.
  - apply Is_true_true. by apply Nat.ltb_lt.
Qed.

Lemma in_range_np_where (b : list bool) (n : nat) :
  length b ≤ n → in_range n (np_where b) = true.
Proof.
  intros Hn. apply in_range_spec. intros t Ht. apply np_where_lt in Ht. lia.
Qed.

(** *** Reading and writing entries *)

Lemma get_lt {A} (a : ndarray A) (t f : nat) (x : A) :
  get a t f = Some x → t < shape0 a.
Proof.
  unfold get, shape0. intros H. apply lookup_lt_is_Some.
  destruct (rows a !! t); [eauto | discriminate].
Qed.

Lemma get_is_Some {A} (a : ndarray A) (t f : nat) :
  rectangular a → t < shape0 a → f < shape1 a → is_Some (get a t f).
Proof.
  unfold rectangular, shape0, get. intros Hrect Ht Hf.
  destruct (lookup_lt_is_Some_2 _ _ Ht) as [r Hr]. rewrite Hr. simpl.
  apply lookup_lt_is_Some.
  rewrite Forall_lookup in Hrect. rewrite (Hrect _ _ Hr). exact Hf.
Qed.

Lemma get_Some_lt {A} (a : ndarray A) (t f : nat) (x : A) :
  rectangular a → get a t f = Some x → t < shape0 a ∧ f < shape1 a.
Proof.
  intros Hrect H. split; [by eapply get_lt|].
  unfold rectangular, get in *. destruct (rows a !! t) as [r|] eqn:Hr; [|discriminate].
  simpl in H. rewrite Forall_lookup in Hrect. rewrite <- (Hrect _ _ Hr).
  apply lookup_lt_is_Some. eauto.
Qed.

(** Filling rows: every indexed row becomes the filler, the others stay. *)
Lemma fill_rows_length {A} (r : list A) (idx : list nat) (rs : list (list A)) :
  length (foldl (fun rs t => <[t := r]> rs) rs idx) = length rs.
Proof.
  revert rs. induction idx as [|t idx IH]; intros rs; simpl; [done|].
  by rewrite IH, length_insert.
Qed.

Lemma fill_rows_lookup_in {A} (r : list A) (idx : list nat) (rs : list (list A)) (t : nat) :
  t ∈ idx → t < length rs →
  foldl (fun rs t => <[t := r]> rs) rs idx !! t = Some r.
Proof.
  revert rs. induction idx as [|t' idx IH]; intros rs Hin Hlt; simpl.
  - by apply elem_of_nil in Hin.
  - destruct (decide (t ∈ idx)) as [Hidx|Hidx].
    + apply IH; [done | by rewrite length_insert].
    + apply elem_of_cons in Hin as [->|?]; [|done].
      clear IH. assert (Hhere : <[t' := r]> rs !! t' = Some r)
        by (by apply list_lookup_insert_eq).
      revert Hhere. generalize (<[t' := r]> rs). clear Hlt rs.
      induction idx as [|u idx IH]; intros rs Hrs; simpl; [done|].
      apply IH.
      * intros Hu. apply Hidx. by right.
      * rewrite list_lookup_insert_ne; [done|]. intros ->. apply Hidx. by left.
Qed.

Lemma fill_rows_lookup_out {A} (r : list A) (idx : list nat) (rs : list (list A)) (t : nat) :
  t ∉ idx → foldl (fun rs t => <[t := r]> rs) rs idx !! t = rs !! t.
Proof.
  revert rs. induction idx as [|t' idx IH]; intros rs Hout; simpl; [done|].
  rewrite IH by (intros ?; apply Hout; by right).
  apply list_lookup_insert_ne. intros ->. apply Hout. by left.
Qed.

Lemma setitem_rows_spec {A} (a out : ndarray A) (idx : list nat) (v : A) :
  setitem_rows a idx v = inr out →
  shape1 out = shape1 a ∧ shape0 out = shape0 a ∧
  (∀ t f, t ∈ idx → f < shape1 a → get out t f = Some v) ∧
  (∀ t f, t ∉ idx → get out t f = get a t f).
Proof.
  unfold setitem_rows. destruct (in_range (shape0 a) idx) eqn:Hrange; [|discriminate].
  intros [= <-]. rewrite in_range_spec in Hrange.
  unfold shape0, get in *. simpl. rewrite fill_rows_length.
  split; [done|]. split; [done|]. split.
  - intros t f Ht Hf. rewrite fill_rows_lookup_in by auto. simpl.
    by apply lookup_replicate_2.
  - intros t f Ht. by rewrite fill_rows_lookup_out.
Qed.

Lemma setitem_rows_ok {A} (a : ndarray A) (idx : list nat) (v : A) :
  (∀ t, t ∈ idx → t < shape0 a) → ∃ out, setitem_rows a idx v = inr out.
Proof.
  intros H. apply in_range_spec in H. unfold setitem_rows. rewrite H. eauto.
Qed.

(** Reading a column at some rows depends on those entries only. *)
Lemma getitem_col_ext {A} (a b : ndarray A) (idx : list nat) (f : nat) :
  (∀ t, t ∈ idx → get a t f = get b t f) →
  getitem_col a idx f = getitem_col b idx f.
Proof.
  intros H. unfold getitem_col.
  rewrite (Forall_mapM_ext (fun t => get a t f) (fun t => get b t f)); [done|].
  by apply Forall_forall.
Qed.

Lemma getitem_col_ok {A} (a : ndarray A) (idx : list nat) (f : nat) :
  (∀ t, t ∈ idx → is_Some (get a t f)) → ∃ ys, getitem_col a idx f = inr ys.
Proof.
  intros H. unfold getitem_col.
  destruct (mapM_is_Some_2 (fun t => get a t f) idx) as [ys Hys].
  - apply Forall_forall. intros t Ht. by apply H.
  - rewrite Hys. eauto.
Qed.

Lemma getitem_col_inr {A} (a : ndarray A) (idx : list nat) (f : nat) (ys : list A) :
  getitem_col a idx f = inr ys → ∀ t, t ∈ idx → is_Some (get a t f).
Proof.
  unfold getitem_col. destruct (mapM _ idx) as [ys'|] eqn:Hys; [|discriminate].
  intros _ t Ht.
  assert (Hall : is_Some (mapM (fun t => get a t f) idx)) by eauto.
  apply mapM_is_Some_1 in Hall. rewrite Forall_forall in Hall. by apply Hall.
Qed.

Lemma getitem_col_samples (a : ndarray complex) (idx : list nat) (fi : nat)
  (ys : list complex) :
  getitem_col a idx fi = inr ys ↔ samples_at a fi idx ys.
Proof.
  unfold getitem_col, samples_at. rewrite <- mapM_Some.
  destruct (mapM _ idx) as [ys'|]; split; intros H; congruence.
Qed.

Lemma zip_fmap_self {A} (g : nat → A) (idx : list nat) :
  zip idx (g <$> idx) = (fun t => (t, g t)) <$> idx.
Proof. induction idx as [|t idx IH]; csimpl; [done | by f_equal]. Qed.

Lemma zip_with_fmap_self {A B C} (h : A → B → C) (g1 : nat → A) (g2 : nat → B)
  (idx : list nat) :
  zip_with h (g1 <$> idx) (g2 <$> idx) = (fun t => h (g1 t) (g2 t)) <$> idx.
Proof. induction idx as [|t idx IH]; csimpl; [done | by f_equal]. Qed.

Lemma setitem_col_fmap {A} (a : ndarray A) (idx : list nat) (f : nat) (g : nat → A) :
  setitem_col a idx f (g <$> idx) =
  if in_range (shape0 a) idx && (f <? shape1 a)
  then inr (NdArray (shape1 a) (write_col f g idx (rows a)))
  else inl IndexError.
Proof.
  unfold setitem_col, write_col. rewrite zip_fmap_self, foldl_fmap. done.
Qed.

Lemma cell_alter_insert {A} (rs : list (list A)) (t f : nat) (v : A) (t' f' : nat) :
  cell (alter (<[f := v]>) t rs) t' f' =
  if decide (t' = t ∧ f' = f)
  then match cell rs t f with Some _ => Some v | None => None end
  else cell rs t' f'.
Proof.
  unfold cell. rewrite list_lookup_alter.
  destruct (decide (t = t')) as [->|Hne].
  - destruct (rs !! t') as [r|] eqn:Hr; simpl.
    + rewrite list_lookup_insert.
      destruct (decide (t' = t' ∧ f' = f)) as [[_ ->]|Hnf].
      * destruct (decide (f = f ∧ f < length r)) as [[_ Hlt]|Hge].
        -- destruct (lookup_lt_is_Some_2 _ _ Hlt) as [x ->]. done.
        -- rewrite lookup_ge_None_2; [done|]. lia.
      * destruct (decide (f = f' ∧ f < length r)) as [[-> _]|_]; [|done].
        exfalso. by apply Hnf.
    + by destruct (decide (t' = t' ∧ f' = f)).
  - destruct (decide (t' = t ∧ f' = f)) as [[-> _]|_]; [by destruct Hne | done].
Qed.

Lemma write_col_cell {A} (f : nat) (g : nat → A) (idx : list nat)
  (rs : list (list A)) (t' f' : nat) :
  cell (write_col f g idx rs) t' f' =
  if decide (t' ∈ idx ∧ f' = f)
  then match cell rs t' f with Some _ => Some (g t') | None => None end
  else cell rs t' f'.
Proof.
  revert rs. induction idx as [|t idx IH]; intros rs; simpl.
  - destruct (decide (t' ∈ [] ∧ f' = f)) as [[Hin _]|_]; [|done].
    by apply elem_of_nil in Hin.
  - fold (write_col f g idx (alter (<[f := g t]>) t rs)). rewrite IH.
    rewrite !cell_alter_insert.
    destruct (decide (t' ∈ idx ∧ f' = f)) as [[Hin Hf]|Hout].
    + rewrite Hf.
      rewrite (decide_True (P := t' ∈ t :: idx ∧ f = f))
        by (split; [apply elem_of_cons; by right | done]).
      destruct (decide (t' = t ∧ f = f)) as [[Ht _]|_]; [|done].
      rewrite Ht. by destruct (cell rs t f).
    + destruct (decide (t' = t ∧ f' = f)) as [[Ht Hf]|Hne].
      * rewrite Ht, Hf.
        by rewrite (decide_True (P := t ∈ t :: idx ∧ f = f))
          by (split; [apply elem_of_cons; by left | done]).
      * rewrite decide_False; [done|]. intros [Hin Hf].
        apply elem_of_cons in Hin as [?|?]; [by apply Hne | by apply Hout].
Qed.

Lemma write_col_length {A} (f : nat) (g : nat → A) (idx : list nat)
  (rs : list (list A)) :
  length (write_col f g idx rs) = length rs.
Proof.
  revert rs. induction idx as [|t idx IH]; intros rs; simpl; [done|].
  fold (write_col f g idx (alter (<[f := g t]>) t rs)).
  by rewrite IH, length_alter.
Qed.

Lemma write_col_Forall_length {A} (f : nat) (g : nat → A) (idx : list nat)
  (rs : list (list A)) (n : nat) :
  Forall (fun r => length r = n) rs →
  Forall (fun r => length r = n) (write_col f g idx rs).
Proof.
  revert rs. induction idx as [|t idx IH]; intros rs Hrs; simpl; [done|].
  fold (write_col f g idx (alter (<[f := g t]>) t rs)). apply IH.
  apply Forall_alter; [done|]. intros r _ Hr. by rewrite length_insert.
Qed.

(** Writing what is already there changes nothing. *)
Lemma write_col_id {A} (f : nat) (g : nat → A) (idx : list nat)
  (rs : list (list A)) :
  (∀ t, t ∈ idx → cell rs t f = Some (g t)) → write_col f g idx rs = rs.
Proof.
  induction idx as [|t idx IH]; intros Hsame; simpl; [done|].
  assert (Hstep : alter (<[f := g t]>) t rs = rs).
  { assert (Hhere : t ∈ t :: idx) by (apply elem_of_cons; by left).
    specialize (Hsame t Hhere). unfold cell in Hsame.
    destruct (rs !! t) as [r|] eqn:Hr; [|discriminate]. simpl in Hsame.
    apply list_eq. intros j. rewrite list_lookup_alter.
    destruct (decide (t = j)) as [<-|_]; [|done].
    rewrite Hr. simpl. f_equal. by apply list_insert_id. }
  rewrite Hstep. fold (write_col f g idx rs). apply IH.
  intros u Hu. apply Hsame. by right.
Qed.

(** *** The loop over the channels, seen from outside the store *)

Lemma for_setitem (F : dtype → nat → ndarray complex → exn + ndarray complex)
  (l : loc) (chans : list nat) (d : dtype) (a : ndarray complex) (h : heap) :
  h !! l = Some (ComplexArray d a) →
  for_ chans (fun fi => setitem l (fun d => F d fi)) h =
  (<[l := ComplexArray d (iterate (F d) chans a).1]> h, (iterate (F d) chans a).2).
Proof.
  revert a h. induction chans as [|fi chans IH]; intros a h Hl; simpl.
  - unfold ret. by rewrite insert_id.
  - unfold bind, setitem at 1, bind, load_complex. rewrite Hl. cbn [fst snd].
    destruct (F d fi a) as [e|a'] eqn:HF; simpl.
    + unfold raise. by rewrite insert_id.
    + unfold store. rewrite (IH a' (<[l := ComplexArray d a']> h)).
      * by rewrite insert_insert_eq.
      * apply lookup_insert_eq.
Qed.

Lemma iterate_fixed (F : nat → ndarray complex → exn + ndarray complex)
  (chans : list nat) (b : ndarray complex) :
  (∀ fi, fi ∈ chans → F fi b = inr b) → iterate F chans b = (b, inr tt).
Proof.
  induction chans as [|fi chans IH]; intros Hfix; simpl; [done|].
  rewrite Hfix by (apply elem_of_cons; by left).
  apply IH. intros fi' Hfi'. apply Hfix. apply elem_of_cons. by right.
Qed.

Section ConditionerFacts.

Variable InterpolatedUnivariateSpline :
  list nat -> list float -> exn + (nat -> float).

Variable d : dtype.

Variables on off : list nat.

Abbreviation channel := (interpolate_channel InterpolatedUnivariateSpline d on off).
Abbreviation interpolants_at := (interpolants InterpolatedUnivariateSpline off).

Lemma interpolants_ext (a b : ndarray complex) (fi : nat)
  (itp_real itp_imag : nat → float) :
  (∀ t, t ∈ off → get a t fi = get b t fi) →
  interpolants_at a fi itp_real itp_imag → interpolants_at b fi itp_real itp_imag.
Proof.
  intros Hsame (ys & Hys & Hre & Him). exists ys.
  by rewrite <- (getitem_col_ext a b off fi Hsame).
Qed.

Lemma interpolants_unique (a : ndarray complex) (fi : nat)
  (r1 i1 r2 i2 : nat → float) :
  interpolants_at a fi r1 i1 → interpolants_at a fi r2 i2 → r1 = r2 ∧ i1 = i2.
Proof.
  intros (ys & Hys & Hre & Him) (ys' & Hys' & Hre' & Him').
  rewrite Hys in Hys'. injection Hys' as <-. split; congruence.
Qed.

(** One round of the loop, when it does not raise. *)
Lemma channel_inr (fi : nat) (a a' : ndarray complex) :
  channel fi a = inr a' →
  ∃ itp_real itp_imag,
    interpolants_at a fi itp_real itp_imag ∧
    (∀ t, t ∈ on → t < shape0 a) ∧ fi < shape1 a ∧
    a' = NdArray (shape1 a)
           (write_col fi (stored d itp_real itp_imag) on (rows a)).
Proof.
  unfold interpolate_channel, ebind.
  destruct (getitem_col a off fi) as [e|ys] eqn:Hys; [discriminate|].
  destruct (InterpolatedUnivariateSpline off (real <$> ys)) as [e|fr] eqn:Hre;
    [discriminate|].
  destruct (InterpolatedUnivariateSpline off (imag <$> ys)) as [e|fim] eqn:Him;
    [discriminate|].
  rewrite zip_with_fmap_self, <- list_fmap_compose, setitem_col_fmap.
  destruct (in_range (shape0 a) on) eqn:Hrange; [|discriminate].
  destruct (fi <? shape1 a) eqn:Hfi; [|discriminate].
  simpl. intros [= <-]. exists fr, fim.
  split; [by exists ys|]. split; [by apply in_range_spec|].
  split; [by apply Nat.ltb_lt | done].
Qed.

(** One round of the loop does not raise when the interpolator accepts the
    channel and no index is out of range. *)
Lemma channel_ok (fi : nat) (a : ndarray complex) (itp_real itp_imag : nat → float) :
  interpolants_at a fi itp_real itp_imag →
  (∀ t, t ∈ on → t < shape0 a) → fi < shape1 a →
  channel fi a =
  inr (NdArray (shape1 a)
         (write_col fi (stored d itp_real itp_imag) on (rows a))).
Proof.
  intros (ys & Hys & Hre & Him) Hon Hfi.
  unfold interpolate_channel, ebind. rewrite Hys, Hre, Him.
  rewrite zip_with_fmap_self, <- list_fmap_compose, setitem_col_fmap.
  apply in_range_spec in Hon. rewrite Hon.
  apply Nat.ltb_lt in Hfi. by rewrite Hfi.
Qed.

(** The array after one round, entry by entry. *)
Lemma channel_get (fi : nat) (a a' : ndarray complex) :
  rectangular a → channel fi a = inr a' →
  shape1 a' = shape1 a ∧ shape0 a' = shape0 a ∧ rectangular a' ∧
  fi < shape1 a ∧ (∀ t, t ∈ on → t < shape0 a) ∧
  ∃ itp_real itp_imag,
    interpolants_at a fi itp_real itp_imag ∧
    (∀ t, t ∈ on → get a' t fi = Some (stored d itp_real itp_imag t)) ∧
    (∀ t f, t ∉ on ∨ f ≠ fi → get a' t f = get a t f).
Proof.
  intros Hrect Hstep.
  destruct (channel_inr fi a a' Hstep) as (fr & fim & Hint & Hon & Hfi & ->).
  unfold shape0, rectangular. simpl. rewrite write_col_length.
  split; [done|]. split; [done|].
  split; [by apply write_col_Forall_length|].
  split; [done|]. split; [done|].
  exists fr, fim. split; [done|]. split.
  - intros t Ht. unfold get. simpl.
    change (cell (write_col fi (stored d fr fim) on (rows a)) t fi
            = Some (stored d fr fim t)).
    rewrite write_col_cell, decide_True by done.
    destruct (get_is_Some a t fi Hrect (Hon t Ht) Hfi) as [x Hx].
    unfold get in Hx. unfold cell. by rewrite Hx.
  - intros t f Hout. unfold get. simpl.
    change (cell (write_col fi (stored d fr fim) on (rows a)) t f
            = cell (rows a) t f).
    rewrite write_col_cell, decide_False; [done|]. intros [? ?]. by destruct Hout.
Qed.

(** The loop over the channels [chans], when it runs to its end. *)
Lemma iterate_inr (chans : list nat) (a out : ndarray complex) :
  NoDup chans → rectangular a →
  iterate channel chans a = (out, inr tt) →
  shape1 out = shape1 a ∧ shape0 out = shape0 a ∧ rectangular out ∧
  (∀ t f, t ∉ on ∨ f ∉ chans → get out t f = get a t f) ∧
  (∀ fi, fi ∈ chans →
     fi < shape1 a ∧ (∀ t, t ∈ on → t < shape0 a) ∧
     ∃ itp_real itp_imag,
       interpolants_at a fi itp_real itp_imag ∧
       ∀ t, t ∈ on → get out t fi = Some (stored d itp_real itp_imag t)).
Proof.
  revert a. induction chans as [|fi chans IH]; intros a Hnodup Hrect; simpl.
  - intros [= <-]. split; [done|]. split; [done|]. split; [done|]. split; [done|].
    intros fi' Hfi'. by apply elem_of_nil in Hfi'.
  - destruct (channel fi a) as [e|a1] eqn:Hstep; [discriminate|].
    apply NoDup_cons in Hnodup as [Hfresh Hnodup].
    destruct (channel_get fi a a1 Hrect Hstep)
      as (Hs1 & Hs0 & Hrect1 & Hfi & Hon & fr & fim & Hint & Hnew & Hold).
    intros Hrest.
    destruct (IH a1 Hnodup Hrect1 Hrest) as (Hs1' & Hs0' & Hrect' & Hold' & Hnew').
    split; [congruence|]. split; [congruence|]. split; [done|]. split.
    + intros t f Hout. rewrite Hold'.
      * apply Hold. destruct Hout as [?|Hf]; [by left | right].
        intros ->. apply Hf. apply elem_of_cons. by left.
      * destruct Hout as [?|Hf]; [by left | right].
        intros ?. apply Hf. apply elem_of_cons. by right.
    + intros fi' Hfi'. apply elem_of_cons in Hfi' as [->|Hfi'].
      * split; [done|]. split; [done|]. exists fr, fim. split; [done|].
        intros t Ht. rewrite Hold' by (by right). by apply Hnew.
      * destruct (Hnew' fi' Hfi') as (Hlt & Hon' & fr' & fim' & Hint' & Hval).
        split; [congruence|]. split; [done|]. exists fr', fim'. split; [|done].
        apply (interpolants_ext a1 a); [|done].
        intros t _. apply Hold. right. intros ->. by apply Hfresh.
Qed.

(** The loop runs to its end when the interpolator accepts every channel
    and no index in [on] is out of range. *)
Lemma iterate_ok (chans : list nat) (a : ndarray complex) :
  NoDup chans → rectangular a →
  (∀ t, t ∈ on → t < shape0 a) →
  (∀ fi, fi ∈ chans →
     fi < shape1 a ∧ ∃ itp_real itp_imag, interpolants_at a fi itp_real itp_imag) →
  ∃ out, iterate channel chans a = (out, inr tt).
Proof.
  revert a. induction chans as [|fi chans IH]; intros a Hnodup Hrect Hon Hall; simpl.
  - by exists a.
  - apply NoDup_cons in Hnodup as [Hfresh Hnodup].
    destruct (Hall fi) as (Hfi & fr & fim & Hint); [apply elem_of_cons; by left|].
    pose proof (channel_ok fi a fr fim Hint Hon Hfi) as Hstep. rewrite Hstep.
    destruct (channel_get fi a _ Hrect Hstep)
      as (Hs1 & Hs0 & Hrect1 & _ & _ & _ & _ & _ & _ & Hold).
    apply IH; [done | done | by rewrite Hs0 |].
    intros fi' Hfi'.
    destruct (Hall fi') as (Hlt & fr' & fim' & Hint'); [apply elem_of_cons; by right|].
    split; [by rewrite Hs1|]. exists fr', fim'.
    apply (interpolants_ext a); [|done].
    intros t _. symmetry. apply Hold. right. intros ->. by apply Hfresh.
Qed.

(** A round that writes the values the channel already holds changes
    nothing. *)
Lemma channel_fixed (fi : nat) (b : ndarray complex) (itp_real itp_imag : nat → float) :
  interpolants_at b fi itp_real itp_imag →
  (∀ t, t ∈ on → get b t fi = Some (stored d itp_real itp_imag t)) →
  fi < shape1 b →
  channel fi b = inr b.
Proof.
  intros Hint Hval Hfi.
  rewrite (channel_ok fi b itp_real itp_imag Hint); [| |done].
  - rewrite write_col_id by exact Hval. by destruct b.
  - intros t Ht. eapply get_lt. by apply Hval.
Qed.

(** The loop applied to its own result leaves it as it is. *)
Lemma iterate_twice (chans : list nat) (a out : ndarray complex) :
  (∀ t, t ∈ on → t ∉ off) →
  NoDup chans → rectangular a →
  iterate channel chans a = (out, inr tt) →
  iterate channel chans out = (out, inr tt).
Proof.
  intros Hdisj Hnodup Hrect Hrun.
  destruct (iterate_inr chans a out Hnodup Hrect Hrun)
    as (Hs1 & Hs0 & Hrect' & Hold & Hnew).
  apply iterate_fixed. intros fi Hfi.
  destruct (Hnew fi Hfi) as (Hlt & Hon & fr & fim & Hint & Hval).
  apply (channel_fixed fi out fr fim); [|done|congruence].
  apply (interpolants_ext a); [|done].
  intros t Ht. symmetry. apply Hold. left. intros Hton. by apply (Hdisj t).
Qed.

(** When the loop raises on an array whose indexed rows all exist, the
    exception is the interpolator's, raised on the samples at [off] of one
    of the channels. *)
Lemma iterate_inl (chans : list nat) (a stop : ndarray complex) (e : exn) :
  NoDup chans → rectangular a →
  (∀ t, t ∈ on → t < shape0 a) → (∀ t, t ∈ off → t < shape0 a) →
  (∀ fi, fi ∈ chans → fi < shape1 a) →
  iterate channel chans a = (stop, inl e) →
  ∃ fi ys, fi ∈ chans ∧ getitem_col a off fi = inr ys ∧
    (InterpolatedUnivariateSpline off (real <$> ys) = inl e ∨
     InterpolatedUnivariateSpline off (imag <$> ys) = inl e).
Proof.
  revert a. induction chans as [|fi chans IH];
    intros a Hnodup Hrect Hon Hoff Hchans; simpl; [discriminate|].
  apply NoDup_cons in Hnodup as [Hfresh Hnodup].
  assert (Hfi : fi < shape1 a) by (apply Hchans, elem_of_cons; by left).
  destruct (channel fi a) as [e'|a1] eqn:Hstep.
  - intros [= _ <-]. exists fi.
    destruct (getitem_col_ok a off fi) as [ys Hys].
    { intros t Ht. apply get_is_Some; auto. }
    exists ys. split; [apply elem_of_cons; by left|]. split; [done|].
    revert Hstep. unfold interpolate_channel, ebind. rewrite Hys.
    destruct (InterpolatedUnivariateSpline off (real <$> ys)) as [e1|fr];
      [intros [= ->]; by left|].
    destruct (InterpolatedUnivariateSpline off (imag <$> ys)) as [e2|fim];
      [intros [= ->]; by right|].
    rewrite zip_with_fmap_self, <- list_fmap_compose, setitem_col_fmap.
    apply in_range_spec in Hon. rewrite Hon.
    apply Nat.ltb_lt in Hfi. rewrite Hfi. discriminate.
  - intros Hrest.
    destruct (channel_get fi a a1 Hrect Hstep)
      as (Hs1 & Hs0 & Hrect1 & _ & _ & _ & _ & _ & _ & Hold).
    destruct (IH a1) as (fi' & ys & Hfi' & Hys & Hraise); try done.
    + by rewrite Hs0.
    + by rewrite Hs0.
    + intros fi' Hfi'. rewrite Hs1. apply Hchans, elem_of_cons. by right.
    + exists fi', ys. split; [apply elem_of_cons; by right|]. split; [|done].
      rewrite <- Hys. apply getitem_col_ext. intros t _. symmetry. apply Hold.
      right. intros ->. by apply Hfresh.
Qed.

End ConditionerFacts.

(** *** [plot_vis1], mode by mode *)

Lemma fresh_lookup_None (h : heap) : h !! fresh (dom h) = None.
Proof. apply not_elem_of_dom. apply is_fresh. Qed.

Section PlotFacts.

Variable InterpolatedUnivariateSpline :
  list nat -> list float -> exn + (nat -> float).

Abbreviation plot_vis1' := (plot_vis1 InterpolatedUnivariateSpline).

(** Neither flag set: [vis1] is [vis], and the store is not touched. *)
Lemma plot_vis1_pass (i : bool) (ts : gmap string (list bool))
  (vis vis_mask : loc) (h : heap) :
  plot_vis1' (Params false false i) ts vis vis_mask h = (h, inr (Array vis)).
Proof. reflexivity. Qed.

(** [flag_ns] without a dataset ['ns_on']. *)
Lemma plot_vis1_no_ns_on (i : bool) (ts : gmap string (list bool))
  (vis vis_mask : loc) (h : heap) :
  ts !! "ns_on"%string = None →
  plot_vis1' (Params false true i) ts vis vis_mask h = (h, inr (Array vis)).
Proof. intros Hts. unfold plot_vis1. simpl. by rewrite Hts. Qed.

(** [flag_ns] on something that is no complex array in the store. *)
Lemma plot_vis1_ns_no_array (i : bool) (ts : gmap string (list bool))
  (vis vis_mask : loc) (h : heap) (ns_on : list bool) :
  ts !! "ns_on"%string = Some ns_on →
  (∀ d a, h !! vis ≠ Some (ComplexArray d a)) →
  plot_vis1' (Params false true i) ts vis vis_mask h = (h, inl TypeError).
Proof.
  intros Hts Hvis. unfold plot_vis1. simpl. rewrite Hts.
  unfold bind, copy, bind, load_complex.
  destruct (h !! vis) as [[d a|m]|] eqn:Hl; try done. by destruct (Hvis d a).
Qed.

(** [flag_ns] without interpolation: the rows at [on] of a fresh copy are
    filled with not-a-number. *)
Lemma plot_vis1_flag (ts : gmap string (list bool)) (vis vis_mask : loc)
  (h : heap) (d : dtype) (a : ndarray complex) (ns_on : list bool) :
  h !! vis = Some (ComplexArray d a) →
  ts !! "ns_on"%string = Some ns_on →
  plot_vis1' (Params false true false) ts vis vis_mask h =
  match setitem_rows a (np_where ns_on) (cast_to d complex_nan) with
  | inl e => (<[fresh (dom h) := ComplexArray d a]> h, inl e)
  | inr out =>
      (<[fresh (dom h) := ComplexArray d out]> h, inr (Array (fresh (dom h))))
  end.
Proof.
  intros Hvis Hts. unfold plot_vis1. simpl. rewrite Hts.
  unfold bind at 1. unfold copy, bind at 1. unfold load_complex at 1.
  rewrite Hvis. unfold alloc. simpl.
  unfold bind, setitem, bind, load_complex. rewrite lookup_insert_eq. cbn [fst snd].
  destruct (setitem_rows a (np_where ns_on) (cast_to d complex_nan)) as [e|out]; simpl.
  - done.
  - unfold store, ret. by rewrite insert_insert_eq.
Qed.

(** [flag_ns] with interpolation: the loop over the channels runs on a
    fresh copy. *)
Lemma plot_vis1_interpolate (ts : gmap string (list bool)) (vis vis_mask : loc)
  (h : heap) (d : dtype) (a : ndarray complex) (ns_on : list bool) :
  h !! vis = Some (ComplexArray d a) →
  ts !! "ns_on"%string = Some ns_on →
  plot_vis1' (Params false true true) ts vis vis_mask h =
  let run := iterate (interpolate_channel InterpolatedUnivariateSpline d
                        (np_where ns_on) (np_where (logical_not ns_on)))
               (seq 0 (shape1 a)) a in
  (<[fresh (dom h) := ComplexArray d run.1]> h,
   match run.2 with
   | inl e => inl e
   | inr _ => inr (Array (fresh (dom h)))
   end).
Proof.
  intros Hvis Hts. unfold plot_vis1. simpl. rewrite Hts.
  unfold bind at 1. unfold copy, bind at 1. unfold load_complex at 1.
  rewrite Hvis. unfold alloc. simpl.
  unfold bind at 1. unfold load_complex at 1. rewrite lookup_insert_eq.
  cbn [fst snd]. unfold bind.
  rewrite (for_setitem
             (fun d fi => interpolate_channel InterpolatedUnivariateSpline d
                            (np_where ns_on) (np_where (logical_not ns_on)) fi)
             _ _ d a) by apply lookup_insert_eq.
  rewrite insert_insert_eq.
  by destruct (iterate _ _ a) as [a' [e|[]]].
Qed.

(** Making the masked array allocates at most a new mask. *)
Lemma np_ma_array_extends (data mask : loc) (h h' : heap) (r : exn + value) :
  np_ma_array data mask h = (h', r) → h ⊆ h'.
Proof.
  unfold np_ma_array, bind, load_complex, load_bool, alloc, ret, raise.
  destruct (h !! data) as [[? d|?]|]; try (by intros [= <- <-]).
  cbn [snd].
  destruct (h !! mask) as [[? ?|m]|]; try (by intros [= <- <-]).
  destruct (same_shape m d); [by intros [= <- <-]|].
  destruct (size m =? 1);
    [intros [= <- <-]; apply insert_subseteq, fresh_lookup_None|].
  destruct (size m =? size d);
    [intros [= <- <-]; apply insert_subseteq, fresh_lookup_None|].
  by intros [= <- <-].
Qed.

(** Whatever the mode and the outcome, every object of the store is still
    there, unchanged, afterwards. *)
Lemma plot_vis1_extends (self : params) (ts : gmap string (list bool))
  (vis vis_mask : loc) (h h' : heap) (r : exn + value) :
  plot_vis1' self ts vis vis_mask h = (h', r) → h ⊆ h'.
Proof.
  destruct self as [[|] [|] ip].
  - apply np_ma_array_extends.
  - apply np_ma_array_extends.
  - destruct (ts !! "ns_on"%string) as [ns_on|] eqn:Hts.
    + destruct (h !! vis) as [[d a|m]|] eqn:Hvis.
      * destruct ip.
        -- rewrite (plot_vis1_interpolate ts vis vis_mask h d a ns_on Hvis Hts).
           simpl. intros [= <- _]. apply insert_subseteq, fresh_lookup_None.
        -- rewrite (plot_vis1_flag ts vis vis_mask h d a ns_on Hvis Hts).
           destruct (setitem_rows _ _ _); intros [= <- _];
             apply insert_subseteq, fresh_lookup_None.
      * rewrite (plot_vis1_ns_no_array ip ts vis vis_mask h ns_on Hts);
          [by intros [= <- _] | congruence].
      * rewrite (plot_vis1_ns_no_array ip ts vis vis_mask h ns_on Hts);
          [by intros [= <- _] | congruence].
    + rewrite (plot_vis1_no_ns_on ip ts vis vis_mask h Hts). by intros [= <- _].
  - rewrite plot_vis1_pass. by intros [= <- _].
Qed.

End PlotFacts.

(** *** The arithmetic of the recombination *)

Lemma mul_1_l (x : float) : (1 * x)%float = x.
Proof.
  apply Prim2SF_inj. rewrite FloatAxioms.mul_spec.
  pose proof (Prim2SF_valid x) as Hv.
  change (Prim2SF 1) with (S754_finite false 4503599627370496 (-52)).
  destruct (Prim2SF x) as [s|s| |s m e]; try reflexivity.
  unfold SF64mul, SFmul. cbn [xorb].
  unfold valid_binary, bounded, canonical_mantissa in Hv.
  apply andb_prop in Hv as [Hcanon Hbound].
  apply Z.eqb_eq in Hcanon.
  change (4503599627370496 * m)%positive with (Pos.iter xO m 52).
  unfold binary_round_aux, shr_fexp, Zdigits2.
  assert (Hd : Zpos (digits2_pos (Pos.iter xO m 52))
               = (Zpos (digits2_pos m) + 52)%Z).
  { cbn [Pos.iter digits2_pos]. lia. }
  rewrite Hd.
  replace (Z.pos (digits2_pos m) + 52 + (-52 + e))%Z
    with (Z.pos (digits2_pos m) + e)%Z by lia.
  rewrite Hcanon.
  replace (e - (-52 + e))%Z with 52%Z by lia.
  cbn [shr shr_record_of_loc].
  replace (SpecFloat.iter_pos shr_1 52
             {| shr_m := Z.pos (Pos.iter xO m 52); shr_r := false; shr_s := false |})
    with {| shr_m := Z.pos m; shr_r := false; shr_s := false |} by reflexivity.
  replace (-52 + e + 52)%Z with e by lia.
  cbn [shr_m loc_of_shr_record round_nearest_even].
  rewrite Hcanon, Z.sub_diag. cbn [shr shr_record_of_loc shr_m].
  by rewrite Hbound.
Qed.

Lemma same_number_refl (x : float) : same_number x x.
Proof.
  unfold same_number, is_nan. destruct (x =? x)%float; [by left | by right].
Qed.

(** Two floats with one value, or two zeros, are the same number. *)
Lemma same_number_SF (x y : float) :
  Prim2SF x = Prim2SF y ∨
  (∃ s1 s2, Prim2SF x = S754_zero s1 ∧ Prim2SF y = S754_zero s2) →
  same_number x y.
Proof.
  intros [H|(s1 & s2 & H1 & H2)].
  - apply Prim2SF_inj in H. subst. apply same_number_refl.
  - left. by rewrite FloatAxioms.eqb_spec, H1, H2.
Qed.

Lemma add_0_0_l (x : float) : same_number (0 + (0 + x))%float x.
Proof.
  apply same_number_SF. rewrite !FloatAxioms.add_spec.
  change (Prim2SF 0) with (S754_zero false).
  destruct (Prim2SF x) as [s|s| |s m e] eqn:Hx; cbn.
  - right. exists false, s. split; [by destruct s | done].
  - by left.
  - by left.
  - by left.
Qed.

Lemma add_zero_r (x z : float) (s : bool) :
  Prim2SF z = S754_zero s → same_number (x + z)%float x.
Proof.
  intros Hz. apply same_number_SF. rewrite FloatAxioms.add_spec, Hz.
  destruct (Prim2SF x) as [sx|sx| |sx m e] eqn:Hx; cbn.
  - right. exists (sx && s), sx. split; [by destruct sx, s | done].
  - by left.
  - by left.
  - by left.
Qed.

Lemma is_finite_SF (x : float) :
  is_finite x = true →
  (∃ s, Prim2SF x = S754_zero s) ∨ (∃ s m e, Prim2SF x = S754_finite s m e).
Proof.
  unfold is_finite, is_nan, is_infinity.
  rewrite !FloatAxioms.eqb_spec, FloatAxioms.abs_spec.
  change (Prim2SF infinity) with (S754_infinity false).
  destruct (Prim2SF x) as [s|s| |s m e]; cbn; intros H.
  - left. by exists s.
  - by destruct s.
  - done.
  - right. by exists s, m, e.
Qed.

Lemma zero_mul_finite (x : float) :
  is_finite x = true → ∃ s, Prim2SF (0 * x - 1 * 0)%float = S754_zero s.
Proof.
  intros H. rewrite FloatAxioms.sub_spec, FloatAxioms.mul_spec.
  change (Prim2SF (1 * 0)) with (S754_zero false).
  change (Prim2SF 0) with (S754_zero false).
  destruct (is_finite_SF x H) as [[s ->]|(s & m & e & ->)]; cbn;
    destruct s; eexists; reflexivity.
Qed.

(** The parts of [re + 1.0J * im]: the imaginary part is [im]; the real
    part is [re] when [im] is finite, and is not a number otherwise, for
    [1.0J * im] then has [0 * im] as real part. *)
Lemma recombine_imag (re im : float) : same_number (imag (recombine re im)) im.
Proof.
  unfold recombine, cadd, cmul, of_real, J. cbn [real imag].
  change (0 * 0)%float with 0%float. rewrite mul_1_l. apply add_0_0_l.
Qed.

Lemma recombine_real (re im : float) :
  is_finite im = true → same_number (real (recombine re im)) re.
Proof.
  intros Him. unfold recombine, cadd, cmul, of_real, J. cbn [real imag].
  destruct (zero_mul_finite im Him) as [s Hs]. by apply (add_zero_r re _ s).
Qed.

(** *** The cast to binary32 on concrete floats *)

(** To the nearest, ties to even. *)
Example float32_ties_to_even :
  float32 16777217 = 16777216%float ∧ float32 16777219 = 16777220%float.
Proof. split; reflexivity. Qed.

(** Past the largest binary32 number, to infinity; below the smallest, to
    zero or to the smallest. *)
Example float32_range :
  float32 0x1.fffffefp127 = 0x1.fffffep127%float ∧
  float32 0x1.ffffffp127 = infinity ∧
  float32 0x1p-150 = 0%float ∧
  float32 0x1.8p-149 = 0x1p-148%float.
Proof. repeat split; reflexivity. Qed.

Example float32_third :
  float32 (1 / 3) = 0x1.555556p-2%float ∧ (float32 (1 / 3) =? 1 / 3)%float = false.
Proof. split; reflexivity. Qed.

(** What is not a number, infinite or zero stays as it is. *)
Example float32_special :
  float32 nan = nan ∧ float32 infinity = infinity ∧
  float32 neg_infinity = neg_infinity ∧ float32 (-0) = (-0)%float.
Proof. repeat split; reflexivity. Qed.

(** *** The recombination on concrete floats *)

(** On finite parts the recombined sample has these parts. *)
Example recombine_finite : recombine 3 6 = Complex 3 6.
Proof. reflexivity. Qed.

(** An imaginary part that is not finite makes the real part not-a-number:
    [0 * infinity] is. *)
Example recombine_infinite : recombine 3 infinity = Complex nan infinity.
Proof. reflexivity. Qed.

(** *** A complex64 array rounds what is stored into it *)

(** The same samples and the same indicator in a [complex128] and in a
    [complex64] array: the interpolated sample at the time 1 is one third
    in the first and the binary32 number nearest to it in the second. *)
Example complex64_rounds_on_store :
  ∃ out128 out64 : ndarray complex,
    (plot_vis1 linear_spline (Params false true true) thirds_ts
       1%positive 2%positive (thirds_heap complex128)).1 !! 3%positive
    = Some (ComplexArray complex128 out128) ∧
    (plot_vis1 linear_spline (Params false true true) thirds_ts
       1%positive 2%positive (thirds_heap complex64)).1 !! 3%positive
    = Some (ComplexArray complex64 out64) ∧
    get out128 1 0 = Some (Complex (1 / 3) 0) ∧
    get out64 1 0 = Some (Complex (float32 (1 / 3)) 0).
Proof. eexists _, _. repeat split; reflexivity. Qed.

(** *** The claims about the conditioner *)

(** C2.  With neither mask flagging nor noise flagging requested, [vis1]
    is [vis] itself, for every array, mask and store, and the store is
    left as it was. *)
Theorem pass_through_is_identity
  (spline : list nat → list float → exn + (nat → float))
  (interpolate : bool) (ts : gmap string (list bool))
  (vis vis_mask : loc) (h : heap) :
  plot_vis1 spline (Params false false interpolate) ts vis vis_mask h
  = (h, inr (Array vis)).
Proof. unfold plot_vis1. cbn [flag_mask flag_ns]. reflexivity. Qed.

(** C10.  With noise flagging requested and no dataset ['ns_on'] in the
    input, [vis1] is [vis] itself and nothing is raised. *)
Theorem flag_ns_without_indicator_passes_through
  (spline : list nat → list float → exn + (nat → float))
  (interpolate : bool) (ts : gmap string (list bool))
  (vis vis_mask : loc) (h : heap)
  (Hts : ts !! "ns_on"%string = None) :
  plot_vis1 spline (Params false true interpolate) ts vis vis_mask h
  = (h, inr (Array vis)).
Proof. unfold plot_vis1. cbn [flag_mask flag_ns]. by rewrite Hts. Qed.

Lemma flag_ns_without_indicator_witness :
  (∅ : gmap string (list bool)) !! "ns_on"%string = None ∧
  plot_vis1 linear_spline (Params false true true) ∅ 1%positive 2%positive
    scenario_heap
  = (scenario_heap, inr (Array 1%positive)).
Proof.
  assert (Hts : (∅ : gmap string (list bool)) !! "ns_on"%string = None)
    by reflexivity.
  split; [exact Hts|].
  exact (flag_ns_without_indicator_passes_through linear_spline true ∅
           1%positive 2%positive scenario_heap Hts).
Defined.

(** C3.  Noise flagging without interpolation, on a complex array [a]
    with an indicator of its length in time: [vis1] is a fresh copy in
    which every sample at a time where the indicator is true has
    not-a-number as real and as imaginary part, and every sample at a time
    where it is false is the sample of [a]. *)
Theorem flag_ns_marks_nan
  (spline : list nat → list float → exn + (nat → float))
  (ts : gmap string (list bool)) (vis vis_mask : loc) (h : heap)
  (d : dtype) (a : ndarray complex) (ns_on : list bool)
  (Hvis : h !! vis = Some (ComplexArray d a))
  (Hrect : rectangular a)
  (Hts : ts !! "ns_on"%string = Some ns_on)
  (Hlen : length ns_on = shape0 a) :
  ∃ (vis1 : loc) (out : ndarray complex),
    plot_vis1 spline (Params false true false) ts vis vis_mask h
    = (<[vis1 := ComplexArray d out]> h, inr (Array vis1)) ∧
    h !! vis1 = None ∧
    shape0 out = shape0 a ∧ shape1 out = shape1 a ∧
    ∀ t f, t < shape0 a → f < shape1 a →
      (ns_on !! t = Some true →
       ∃ s, get out t f = Some s ∧
            is_nan (real s) = true ∧ is_nan (imag s) = true) ∧
      (ns_on !! t = Some false → get out t f = get a t f).
Proof.
  rewrite (plot_vis1_flag spline ts vis vis_mask h d a ns_on Hvis Hts).
  destruct (setitem_rows_ok a (np_where ns_on) (cast_to d complex_nan))
    as [out Hout].
  { intros t Ht. apply np_where_lt in Ht. lia. }
  rewrite Hout.
  destruct (setitem_rows_spec a out _ _ Hout) as (Hs1 & Hs0 & Hin & Hnot).
  exists (fresh (dom h)), out.
  split; [done|]. split; [apply fresh_lookup_None|].
  split; [done|]. split; [done|].
  intros t f Ht Hf. split.
  - intros Hon. exists (cast_to d complex_nan). split; [|by destruct d].
    apply Hin; [by apply elem_of_np_where | done].
  - intros Hoff. apply Hnot. rewrite elem_of_np_where. congruence.
Qed.

Lemma scenario_rectangular : rectangular (ramp 10 4).
Proof. unfold rectangular. simpl. repeat constructor. Defined.

Lemma flag_ns_marks_nan_witness :
  ∃ (vis1 : loc) (out : ndarray complex),
    plot_vis1 linear_spline (Params false true false) scenario_ts
      1%positive 2%positive scenario_heap
    = (<[vis1 := ComplexArray complex128 out]> scenario_heap, inr (Array vis1)) ∧
    scenario_heap !! vis1 = None ∧
    shape0 out = shape0 (ramp 10 4) ∧ shape1 out = shape1 (ramp 10 4) ∧
    ∀ t f, t < shape0 (ramp 10 4) → f < shape1 (ramp 10 4) →
      (scenario_ns_on !! t = Some true →
       ∃ s, get out t f = Some s ∧
            is_nan (real s) = true ∧ is_nan (imag s) = true) ∧
      (scenario_ns_on !! t = Some false → get out t f = get (ramp 10 4) t f).
Proof.
  exact (flag_ns_marks_nan linear_spline scenario_ts 1%positive 2%positive
           scenario_heap complex128 (ramp 10 4) scenario_ns_on
           eq_refl scenario_rectangular eq_refl eq_refl).
Defined.

Lemma scenario_interpolants (fi : nat) (ys : list complex) :
  fi < shape1 (ramp 10 4) →
  samples_at (ramp 10 4) fi (np_where (logical_not scenario_ns_on)) ys →
  ∃ itp_real itp_imag,
    linear_spline (np_where (logical_not scenario_ns_on)) (real <$> ys)
    = inr itp_real ∧
    linear_spline (np_where (logical_not scenario_ns_on)) (imag <$> ys)
    = inr itp_imag.
Proof. intros _ _. eexists _, _. split; reflexivity. Defined.

(** C4.  Noise flagging with interpolation, on a complex array [a] of
    either dtype with an indicator of its length in time, [off] being the
    times at which the indicator is false, in increasing order, when the
    interpolator accepts the off samples of every channel: [vis1] is a
    fresh copy in which every sample at an off time is the sample of [a],
    and every sample at an on time [t] of a channel [fi] is, stored in the
    dtype of the array, a complex number [v] whose imaginary part is the
    value at [t] of the spline through the imaginary parts of the samples
    of channel [fi] at [off], and whose real part is the value at [t] of
    the spline through their real parts (when the imaginary spline value
    is finite: otherwise [1.0J * itp_imag] has no real part that is a
    number). *)
Theorem interpolate_ns_replaces_on_samples
  (spline : list nat → list float → exn + (nat → float))
  (ts : gmap string (list bool)) (vis vis_mask : loc) (h : heap)
  (d : dtype) (a : ndarray complex) (ns_on : list bool) (off : list nat)
  (Hvis : h !! vis = Some (ComplexArray d a))
  (Hrect : rectangular a)
  (Hts : ts !! "ns_on"%string = Some ns_on)
  (Hlen : length ns_on = shape0 a)
  (Hoff : times_where ns_on false off)
  (Hfit : ∀ fi ys, fi < shape1 a → samples_at a fi off ys →
     ∃ itp_real itp_imag,
       spline off (real <$> ys) = inr itp_real ∧
       spline off (imag <$> ys) = inr itp_imag) :
  ∃ (vis1 : loc) (out : ndarray complex),
    plot_vis1 spline (Params false true true) ts vis vis_mask h
    = (<[vis1 := ComplexArray d out]> h, inr (Array vis1)) ∧
    h !! vis1 = None ∧
    shape0 out = shape0 a ∧ shape1 out = shape1 a ∧
    ∀ t fi, t < shape0 a → fi < shape1 a →
      (ns_on !! t = Some false → get out t fi = get a t fi) ∧
      (ns_on !! t = Some true →
       ∃ (ys : list complex) (itp_real itp_imag : nat → float) (v : complex),
         samples_at a fi off ys ∧
         spline off (real <$> ys) = inr itp_real ∧
         spline off (imag <$> ys) = inr itp_imag ∧
         same_number (imag v) (itp_imag t) ∧
         (is_finite (itp_imag t) = true → same_number (real v) (itp_real t)) ∧
         get out t fi = Some (cast_to d v)).
Proof.
  apply times_where_off in Hoff. subst off.
  rewrite (plot_vis1_interpolate spline ts vis vis_mask h d a ns_on Hvis Hts).
  set (on := np_where ns_on). set (off := np_where (logical_not ns_on)) in *.
  assert (Hoff : ∀ t, t ∈ off → t < shape0 a).
  { intros t Ht. apply np_where_lt in Ht. unfold logical_not in Ht.
    rewrite length_fmap in Ht. lia. }
  destruct (iterate_ok spline d on off (seq 0 (shape1 a)) a) as [out Hrun].
  { apply NoDup_seq. }
  { done. }
  { intros t Ht. apply np_where_lt in Ht. lia. }
  { intros fi Hfi. apply elem_of_seq in Hfi. split; [lia|].
    destruct (getitem_col_ok a off fi) as [ys Hys].
    { intros t Ht. apply get_is_Some; [done | by apply Hoff | lia]. }
    destruct (Hfit fi ys) as (fr & fim & Hre & Him);
      [lia | by apply getitem_col_samples |].
    exists fr, fim, ys. done. }
  destruct (iterate_inr spline d on off _ a out (NoDup_seq _ _) Hrect Hrun)
    as (Hs1 & Hs0 & _ & Hold & Hnew).
  cbv zeta. rewrite Hrun. cbn [fst snd].
  exists (fresh (dom h)), out.
  split; [done|]. split; [apply fresh_lookup_None|].
  split; [done|]. split; [done|].
  intros t fi Ht Hfi. split.
  - intros Hfalse. apply Hold. left. unfold on. rewrite elem_of_np_where. congruence.
  - intros Hon.
    destruct (Hnew fi) as (_ & _ & fr & fim & (ys & Hys & Hre & Him) & Hval).
    { apply elem_of_seq. lia. }
    exists ys, fr, fim, (recombine (fr t) (fim t)).
    split; [by apply getitem_col_samples|]. split; [done|]. split; [done|].
    split; [apply recombine_imag|]. split; [apply recombine_real|].
    apply Hval. by apply elem_of_np_where.
Qed.

Lemma interpolate_ns_replaces_on_samples_witness :
  ∃ (vis1 : loc) (out : ndarray complex),
    plot_vis1 linear_spline (Params false true true) scenario_ts
      1%positive 2%positive scenario_heap
    = (<[vis1 := ComplexArray complex128 out]> scenario_heap, inr (Array vis1)) ∧
    scenario_heap !! vis1 = None ∧
    shape0 out = shape0 (ramp 10 4) ∧ shape1 out = shape1 (ramp 10 4) ∧
    ∀ t fi, t < shape0 (ramp 10 4) → fi < shape1 (ramp 10 4) →
      (scenario_ns_on !! t = Some false → get out t fi = get (ramp 10 4) t fi) ∧
      (scenario_ns_on !! t = Some true →
       ∃ (ys : list complex) (itp_real itp_imag : nat → float) (v : complex),
         samples_at (ramp 10 4) fi [1; 2; 4; 5; 7; 8] ys ∧
         linear_spline [1; 2; 4; 5; 7; 8] (real <$> ys) = inr itp_real ∧
         linear_spline [1; 2; 4; 5; 7; 8] (imag <$> ys) = inr itp_imag ∧
         same_number (imag v) (itp_imag t) ∧
         (is_finite (itp_imag t) = true → same_number (real v) (itp_real t)) ∧
         get out t fi = Some (cast_to complex128 v)).
Proof.
  exact (interpolate_ns_replaces_on_samples linear_spline scenario_ts
           1%positive 2%positive scenario_heap complex128 (ramp 10 4)
           scenario_ns_on [1; 2; 4; 5; 7; 8]
           eq_refl scenario_rectangular eq_refl eq_refl
           (times_where_np_where_not scenario_ns_on) scenario_interpolants).
Defined.

(** C6.  In every mode and whatever the outcome, the visibility array and
    the mask array given to [plot_vis1] hold afterwards what they held
    before. *)
Theorem inputs_not_mutated
  (spline : list nat → list float → exn + (nat → float))
  (self : params) (ts : gmap string (list bool)) (vis vis_mask : loc)
  (h h' : heap) (r : exn + value) (d : dtype) (a : ndarray complex)
  (m : ndarray bool)
  (Hvis : h !! vis = Some (ComplexArray d a))
  (Hmask : h !! vis_mask = Some (BoolArray m))
  (Hrun : plot_vis1 spline self ts vis vis_mask h = (h', r)) :
  h' !! vis = Some (ComplexArray d a) ∧ h' !! vis_mask = Some (BoolArray m).
Proof.
  pose proof (plot_vis1_extends spline self ts vis vis_mask h h' r Hrun) as Hsub.
  split; eapply lookup_weaken; eauto.
Qed.

Lemma inputs_not_mutated_witness :
  (plot_vis1 linear_spline (Params false true true) scenario_ts
     1%positive 2%positive scenario_heap).1 !! 1%positive
  = Some (ComplexArray complex128 (ramp 10 4)) ∧
  (plot_vis1 linear_spline (Params false true true) scenario_ts
     1%positive 2%positive scenario_heap).1 !! 2%positive
  = Some (BoolArray (NdArray 4 (replicate 10 (replicate 4 false)))).
Proof.
  exact (inputs_not_mutated linear_spline (Params false true true) scenario_ts
           1%positive 2%positive scenario_heap _ _ complex128 (ramp 10 4)
           (NdArray 4 (replicate 10 (replicate 4 false)))
           eq_refl eq_refl (surjective_pairing _)).
Defined.

(** C7.  Interpolating twice with the same indicator gives what
    interpolating once gives: when a first pass over [a] returns the array
    [out], a second pass over [out] returns a fresh array equal to
    [out]. *)
Theorem interpolation_idempotent
  (spline : list nat → list float → exn + (nat → float))
  (ts : gmap string (list bool)) (vis vis_mask : loc) (h h1 : heap)
  (d : dtype) (a : ndarray complex) (ns_on : list bool) (vis1 : loc)
  (Hvis : h !! vis = Some (ComplexArray d a))
  (Hrect : rectangular a)
  (Hts : ts !! "ns_on"%string = Some ns_on)
  (Hrun : plot_vis1 spline (Params false true true) ts vis vis_mask h
          = (h1, inr (Array vis1))) :
  ∃ (out : ndarray complex) (vis2 : loc),
    h1 !! vis1 = Some (ComplexArray d out) ∧
    plot_vis1 spline (Params false true true) ts vis1 vis_mask h1
    = (<[vis2 := ComplexArray d out]> h1, inr (Array vis2)) ∧
    h1 !! vis2 = None.
Proof.
  rewrite (plot_vis1_interpolate spline ts vis vis_mask h d a ns_on Hvis Hts) in Hrun.
  cbv zeta in Hrun.
  set (on := np_where ns_on) in *. set (off := np_where (logical_not ns_on)) in *.
  destruct (iterate _ (seq 0 (shape1 a)) a) as [out [e|[]]] eqn:Hiter;
    cbn [fst snd] in Hrun; [discriminate|].
  injection Hrun as <- <-.
  destruct (iterate_inr spline d on off _ a out (NoDup_seq _ _) Hrect Hiter)
    as (Hs1 & _).
  assert (Htwice : iterate (interpolate_channel spline d on off)
                     (seq 0 (shape1 out)) out = (out, inr tt)).
  { rewrite Hs1. apply (iterate_twice spline d on off _ a); try done.
    - intros t. apply on_off_disjoint.
    - apply NoDup_seq. }
  exists out, (fresh (dom (<[fresh (dom h) := ComplexArray d out]> h))).
  split; [apply lookup_insert_eq|]. split; [|apply fresh_lookup_None].
  rewrite (plot_vis1_interpolate spline ts _ vis_mask _ d out ns_on
             (lookup_insert_eq _ _ _) Hts).
  cbv zeta. fold on off. rewrite Htwice. reflexivity.
Qed.

Lemma interpolation_idempotent_witness :
  ∃ (out : ndarray complex) (vis2 : loc),
    (plot_vis1 linear_spline (Params false true true) scenario_ts
       1%positive 2%positive scenario_heap).1 !! 3%positive
    = Some (ComplexArray complex128 out) ∧
    plot_vis1 linear_spline (Params false true true) scenario_ts 3%positive
      2%positive
      (plot_vis1 linear_spline (Params false true true) scenario_ts
         1%positive 2%positive scenario_heap).1
    = (<[vis2 := ComplexArray complex128 out]>
         (plot_vis1 linear_spline (Params false true true) scenario_ts
            1%positive 2%positive scenario_heap).1,
       inr (Array vis2)) ∧
    (plot_vis1 linear_spline (Params false true true) scenario_ts
       1%positive 2%positive scenario_heap).1 !! vis2 = None.
Proof.
  exact (interpolation_idempotent linear_spline scenario_ts 1%positive
           2%positive scenario_heap _ complex128 (ramp 10 4) scenario_ns_on
           3%positive
           eq_refl scenario_rectangular eq_refl
           (surjective_pairing
              (plot_vis1 linear_spline (Params false true true) scenario_ts
                 1%positive 2%positive scenario_heap))).
Defined.

(** C5, as the code has it.  Noise flagging with interpolation makes no
    count of the off samples and has no error of its own for too few of
    them; on a complex array with an indicator of its length in time,
    [off] being the times at which the indicator is false:
    - whenever the interpolator refuses the off samples of some channel
      (their real or their imaginary parts), [plot_vis1] raises: there is
      no silent fallback;
    - whatever [plot_vis1] raises is the exception the interpolator raised
      on the off samples of some channel, passed on unchanged;
    - so for an interpolator that refuses fewer than [m] points, fewer
      than [m] off times make [plot_vis1] raise as soon as the array has a
      channel. *)
Theorem interpolate_ns_raises_the_interpolators_error
  (spline : list nat → list float → exn + (nat → float))
  (ts : gmap string (list bool)) (vis vis_mask : loc) (h : heap)
  (d : dtype) (a : ndarray complex) (ns_on : list bool) (off : list nat)
  (Hvis : h !! vis = Some (ComplexArray d a))
  (Hrect : rectangular a)
  (Hts : ts !! "ns_on"%string = Some ns_on)
  (Hlen : length ns_on = shape0 a)
  (Hoff : times_where ns_on false off) :
  (∀ fi ys e0, fi < shape1 a → samples_at a fi off ys →
     spline off (real <$> ys) = inl e0 ∨ spline off (imag <$> ys) = inl e0 →
     ∃ e, (plot_vis1 spline (Params false true true) ts vis vis_mask h).2
          = inl e) ∧
  (∀ e, (plot_vis1 spline (Params false true true) ts vis vis_mask h).2 = inl e →
     ∃ fi ys, fi < shape1 a ∧ samples_at a fi off ys ∧
       (spline off (real <$> ys) = inl e ∨ spline off (imag <$> ys) = inl e)) ∧
  (∀ m, (∀ x y, length x < m → ∃ e, spline x y = inl e) →
     length off < m → 0 < shape1 a →
     ∃ e, (plot_vis1 spline (Params false true true) ts vis vis_mask h).2
          = inl e).
Proof.
  apply times_where_off in Hoff. subst off.
  rewrite (plot_vis1_interpolate spline ts vis vis_mask h d a ns_on Hvis Hts).
  cbv zeta. cbn [snd].
  set (on := np_where ns_on). set (off := np_where (logical_not ns_on)).
  assert (Hon : ∀ t, t ∈ on → t < shape0 a).
  { intros t Ht. apply np_where_lt in Ht. lia. }
  assert (Hoff : ∀ t, t ∈ off → t < shape0 a).
  { intros t Ht. apply np_where_lt in Ht. unfold logical_not in Ht.
    rewrite length_fmap in Ht. lia. }
  assert (Hforward : ∀ fi ys e0, fi < shape1 a → samples_at a fi off ys →
     spline off (real <$> ys) = inl e0 ∨ spline off (imag <$> ys) = inl e0 →
     ∃ e, match (iterate (interpolate_channel spline d on off)
                   (seq 0 (shape1 a)) a).2 with
          | inl e => inl e
          | inr _ => inr (Array (fresh (dom h)))
          end = inl e).
  { intros fi ys e0 Hfi Hys Hraise.
    destruct (iterate _ (seq 0 (shape1 a)) a) as [out [e|[]]] eqn:Hiter;
      cbn [snd]; [by exists e|]. exfalso.
    destruct (iterate_inr spline d on off _ a out (NoDup_seq _ _) Hrect Hiter)
      as (_ & _ & _ & _ & Hnew).
    destruct (Hnew fi) as (_ & _ & fr & fim & (ys' & Hys' & Hre & Him) & _).
    { apply elem_of_seq. lia. }
    apply getitem_col_samples in Hys. rewrite Hys in Hys'. injection Hys' as <-.
    destruct Hraise; congruence. }
  split; [exact Hforward|]. split.
  - intros e.
    destruct (iterate _ (seq 0 (shape1 a)) a) as [stop [e'|[]]] eqn:Hiter;
      cbn [snd]; [|discriminate].
    intros [= ->].
    destruct (iterate_inl spline d on off (seq 0 (shape1 a)) a stop e
                (NoDup_seq _ _) Hrect Hon Hoff) as (fi & ys & Hfi & Hys & Hraise).
    + intros fi Hfi. apply elem_of_seq in Hfi. lia.
    + done.
    + exists fi, ys. split; [apply elem_of_seq in Hfi; lia|].
      split; [by apply getitem_col_samples | done].
  - intros m Hmin Hfew Hchan.
    destruct (getitem_col_ok a off 0) as [ys Hys].
    { intros t Ht. apply get_is_Some; [done | by apply Hoff | done]. }
    destruct (Hmin off (real <$> ys) Hfew) as [e0 He0].
    apply (Hforward 0 ys e0 Hchan); [by apply getitem_col_samples | by left].
Qed.

Lemma short_rectangular : rectangular (ramp 4 1).
Proof. unfold rectangular. simpl. repeat constructor. Defined.

Lemma interpolate_ns_raises_the_interpolators_error_witness :
  (∀ fi ys e0, fi < shape1 (ramp 4 1) → samples_at (ramp 4 1) fi [1; 2; 3] ys →
     linear_spline [1; 2; 3] (real <$> ys) = inl e0
     ∨ linear_spline [1; 2; 3] (imag <$> ys) = inl e0 →
     ∃ e, (plot_vis1 linear_spline (Params false true true) short_ts
             1%positive 2%positive short_heap).2 = inl e) ∧
  (∀ e, (plot_vis1 linear_spline (Params false true true) short_ts
           1%positive 2%positive short_heap).2 = inl e →
     ∃ fi ys, fi < shape1 (ramp 4 1) ∧ samples_at (ramp 4 1) fi [1; 2; 3] ys ∧
       (linear_spline [1; 2; 3] (real <$> ys) = inl e
        ∨ linear_spline [1; 2; 3] (imag <$> ys) = inl e)) ∧
  (∀ m, (∀ x y, length x < m → ∃ e, linear_spline x y = inl e) →
     length [1; 2; 3] < m → 0 < shape1 (ramp 4 1) →
     ∃ e, (plot_vis1 linear_spline (Params false true true) short_ts
             1%positive 2%positive short_heap).2 = inl e).
Proof.
  exact (interpolate_ns_raises_the_interpolators_error linear_spline short_ts
           1%positive 2%positive short_heap complex128 (ramp 4 1) short_ns_on
           [1; 2; 3] eq_refl short_rectangular eq_refl eq_refl
           (times_where_np_where_not short_ns_on)).
Defined.

(** C5, as the claim has it, fails: with three off samples, one fewer than
    the cubic spline needs, what is raised is the error of the
    interpolator's own wrapper and not [InsufficientSamples]. *)
Lemma insufficient_samples_not_raised :
  length (np_where (logical_not short_ns_on)) = 3 ∧
  (plot_vis1 linear_spline (Params false true true) short_ts
     1%positive 2%positive short_heap).2
  = inl (Exception "dfitpack.error") ∧
  (plot_vis1 linear_spline (Params false true true) short_ts
     1%positive 2%positive short_heap).2
  ≠ inl (Exception "InsufficientSamples").
Proof.
  split; [reflexivity|]. split; [reflexivity|].
  vm_compute. discriminate.
Qed.

(** *** The baseline of a plot *)

Lemma elem_of_feed_set (x a b : Z) : x ∈ feed_set (a, b) ↔ x = a ∨ x = b.
Proof.
  unfold feed_set. simpl. by rewrite elem_of_union, !elem_of_singleton.
Qed.

Lemma feed_set_eq (a b c d : Z) :
  feed_set (a, b) = feed_set (c, d) ↔ (a = c ∧ b = d) ∨ (a = d ∧ b = c).
Proof.
  split.
  - intros Heq.
    pose proof (proj2 (elem_of_feed_set a a b) (or_introl eq_refl)) as Ha.
    pose proof (proj2 (elem_of_feed_set b a b) (or_intror eq_refl)) as Hb.
    pose proof (proj2 (elem_of_feed_set c c d) (or_introl eq_refl)) as Hc.
    pose proof (proj2 (elem_of_feed_set d c d) (or_intror eq_refl)) as Hd.
    rewrite Heq in Ha, Hb. rewrite <- Heq in Hc, Hd.
    apply elem_of_feed_set in Ha, Hb, Hc, Hd. lia.
  - intros Hcases. apply set_eq. intros x. rewrite !elem_of_feed_set.
    split; intros Hx; lia.
Qed.

Lemma feed_set_listed (a b : Z) (l : list (Z * Z)) :
  feed_set (a, b) ∈ feed_set <$> l ↔ (a, b) ∈ l ∨ (b, a) ∈ l.
Proof.
  rewrite list_elem_of_fmap. split.
  - intros [[c d] [Heq Hin]]. apply feed_set_eq in Heq as [[-> ->]|[-> ->]]; auto.
  - intros [Hin|Hin]; [exists (a, b) | exists (b, a)]; (split; [|done]);
      apply feed_set_eq; auto.
Qed.

(** X8.  With a list for [bl_incl], a baseline is plotted exactly when the
    list has it, in either order of its two feeds, and [bl_excl] has it in
    neither order. *)
Theorem baseline_plotted_iff (a b : Z) (incl excl : list (Z * Z)) :
  baseline_skipped (a, b) (Listed incl) excl = false ↔
  ((a, b) ∈ incl ∨ (b, a) ∈ incl) ∧ ((a, b) ∉ excl) ∧ ((b, a) ∉ excl).
Proof.
  unfold baseline_skipped. cbv zeta.
  rewrite orb_false_iff, negb_false_iff, bool_decide_eq_true, bool_decide_eq_false.
  rewrite !feed_set_listed. tauto.
Qed.

(** X9.  Listing a baseline in [bl_excl] keeps it from being plotted only
    when [bl_incl] is a list: with [bl_incl = 'all'] the baseline is
    plotted all the same. *)
Theorem exclusion_needs_an_inclusion_list (a b : Z) (excl : list (Z * Z))
  (Hexcl : (a, b) ∈ excl ∨ (b, a) ∈ excl) :
  baseline_skipped (a, b) All excl = false ∧
  ∀ incl, baseline_skipped (a, b) (Listed incl) excl = true.
Proof.
  split; [reflexivity|]. intros incl.
  unfold baseline_skipped. cbv zeta.
  apply orb_true_iff. right. apply bool_decide_eq_true.
  by apply feed_set_listed.
Qed.

Lemma exclusion_needs_an_inclusion_list_witness :
  baseline_skipped (1, 2)%Z All [(2, 1)%Z] = false ∧
  ∀ incl, baseline_skipped (1, 2)%Z (Listed incl) [(2, 1)%Z] = true.
Proof.
  apply exclusion_needs_an_inclusion_list. right. apply elem_of_cons. by left.
Defined.






(** *** Masking bad times and frequencies *)

Lemma foldl_alter_lookup {A} (F : A → A) (sel : list nat) (rs : list A) (t : nat) :
  (∀ x, F (F x) = F x) →
  foldl (fun rs t => alter F t rs) rs sel !! t =
  if decide (t ∈ sel) then F <$> rs !! t else rs !! t.
Proof.
  intros Hidem. revert rs. induction sel as [|u sel IH]; intros rs; simpl.
  - destruct (decide (t ∈ [])) as [Hin|_]; [by apply elem_of_nil in Hin | done].
  - rewrite IH. rewrite list_lookup_alter.
    destruct (decide (t ∈ sel)) as [Hin|Hout].
    + rewrite (decide_True (P := t ∈ u :: sel)) by (apply elem_of_cons; by right).
      destruct (decide (u = t)) as [->|_]; [|done].
      destruct (rs !! t); simpl; [by rewrite Hidem | done].
    + destruct (decide (u = t)) as [->|Hne].
      * by rewrite (decide_True (P := t ∈ t :: sel)) by (apply elem_of_cons; by left).
      * rewrite (decide_False (P := t ∈ u :: sel)); [done|]. intros Hin.
        apply elem_of_cons in Hin as [?|?]; [by apply Hne | by apply Hout].
Qed.

Lemma foldl_alter_length {A} (F : A → A) (sel : list nat) (rs : list A) :
  length (foldl (fun rs t => alter F t rs) rs sel) = length rs.
Proof.
  revert rs. induction sel as [|u sel IH]; intros rs; simpl; [done|].
  by rewrite IH, length_alter.
Qed.

Lemma mask_times_shape (m : mask) (sel : list nat) :
  shape0 (mask_times m sel) = shape0 m ∧ shape1 (mask_times m sel) = shape1 m.
Proof. unfold shape0, mask_times. simpl. by rewrite foldl_alter_length. Qed.

Lemma mask_freqs_shape (m : mask) (sel : list nat) :
  shape0 (mask_freqs m sel) = shape0 m ∧ shape1 (mask_freqs m sel) = shape1 m.
Proof. unfold shape0, mask_freqs. simpl. by rewrite length_map. Qed.

Lemma mask_times_entry (m : mask) (sel : list nat) (t f k : nat) :
  entry (mask_times m sel) t f k =
  if decide (t ∈ sel) then (fun _ => true) <$> entry m t f k else entry m t f k.
Proof.
  unfold entry, get, mask_times. simpl.
  rewrite foldl_alter_lookup.
  - destruct (decide (t ∈ sel)); [|done].
    destruct (rows m !! t) as [row|]; simpl; [|done].
    change (map ?g row) with (g <$> row). rewrite list_lookup_fmap.
    destruct (row !! f) as [cell|]; simpl; [|done].
    change (map ?g cell) with (g <$> cell). by rewrite list_lookup_fmap.
  - intros row. rewrite map_map. apply map_ext. intros cell.
    rewrite map_map. done.
Qed.

Lemma mask_freqs_entry (m : mask) (sel : list nat) (t f k : nat) :
  entry (mask_freqs m sel) t f k =
  if decide (f ∈ sel) then (fun _ => true) <$> entry m t f k else entry m t f k.
Proof.
  unfold entry, get, mask_freqs. simpl.
  change (map ?g (rows m)) with (g <$> rows m). rewrite list_lookup_fmap.
  destruct (rows m !! t) as [row|]; simpl; [|by destruct (decide (f ∈ sel))].
  rewrite foldl_alter_lookup.
  - destruct (decide (f ∈ sel)); [|done].
    destruct (row !! f) as [cell|]; simpl; [|done].
    change (map ?g cell) with (g <$> cell). by rewrite list_lookup_fmap.
  - intros cell. by rewrite map_map.
Qed.

Lemma masks_where_refl (m : mask) : masks_where (fun _ _ => False) m m.
Proof.
  split; [done|]. split; [done|]. intros t f k. split; [done|].
  split; [intros H; split; [by rewrite H | by left] | intros [_ [H|[]]]; done].
Qed.

Lemma masks_where_trans (P Q : nat → nat → Prop) (m m1 m2 : mask) :
  masks_where P m m1 → masks_where Q m1 m2 →
  masks_where (fun t f => P t f ∨ Q t f) m m2.
Proof.
  intros (Ha0 & Ha1 & Ha) (Hb0 & Hb1 & Hb).
  split; [congruence|]. split; [congruence|]. intros t f k.
  destruct (Ha t f k) as [Ha_some Ha_true]. destruct (Hb t f k) as [Hb_some Hb_true].
  split; [by rewrite Hb_some|].
  rewrite Hb_true, Ha_true, Ha_some. tauto.
Qed.

Lemma masks_where_ext (P Q : nat → nat → Prop) (m m' : mask) :
  (∀ t f, P t f ↔ Q t f) → masks_where P m m' → masks_where Q m m'.
Proof.
  intros HPQ (H0 & H1 & H). split; [done|]. split; [done|]. intros t f k.
  destruct (H t f k) as [Hsome Htrue]. split; [done|].
  rewrite Htrue, HPQ. done.
Qed.

Lemma mask_times_where (m : mask) (sel : list nat) :
  masks_where (fun t _ => t ∈ sel) m (mask_times m sel).
Proof.
  destruct (mask_times_shape m sel) as [H0 H1].
  split; [done|]. split; [done|]. intros t f k. rewrite mask_times_entry.
  destruct (decide (t ∈ sel)) as [Hin|Hout].
  - destruct (entry m t f k) as [b|]; simpl.
    + split; [split; eauto|]. split; [intros _; split; eauto | done].
    + split; [split; intros []; done|]. split; [done | intros [[] _]; done].
  - split; [done|]. split; [intros H; rewrite H; split; eauto | intros [_ [?|?]]; done].
Qed.

Lemma mask_freqs_where (m : mask) (sel : list nat) :
  masks_where (fun _ f => f ∈ sel) m (mask_freqs m sel).
Proof.
  destruct (mask_freqs_shape m sel) as [H0 H1].
  split; [done|]. split; [done|]. intros t f k. rewrite mask_freqs_entry.
  destruct (decide (f ∈ sel)) as [Hin|Hout].
  - destruct (entry m t f k) as [b|]; simpl.
    + split; [split; eauto|]. split; [intros _; split; eauto | done].
    + split; [split; intros []; done|]. split; [done | intros [[] _]; done].
  - split; [done|]. split; [intros H; rewrite H; split; eauto | intros [_ [?|?]]; done].
Qed.

Lemma hit_nil (n i : nat) : ¬ hit [] n i.
Proof. intros (tuple & _ & _ & Hin & _). by apply elem_of_nil in Hin. Qed.

Lemma hit_cons (tuple : list (option Z)) (l : list (list (option Z)))
  (sl : slice) (sel : list nat) (n i : nat) :
  slice_of tuple = inr sl → selected sl n = inr sel →
  (hit (tuple :: l) n i ↔ i ∈ sel ∨ hit l n i).
Proof.
  intros Hsl Hsel. split.
  - intros (tuple' & sl' & sel' & Hin & Hsl' & Hsel' & Hi).
    apply elem_of_cons in Hin as [->|Hin].
    + left. rewrite Hsl in Hsl'. injection Hsl' as <-.
      rewrite Hsel in Hsel'. by injection Hsel' as <-.
    + right. by exists tuple', sl', sel'.
  - intros [Hi|(tuple' & sl' & sel' & Hin & Hsl' & Hsel' & Hi)].
    + exists tuple, sl, sel. split; [apply elem_of_cons; by left | done].
    + exists tuple', sl', sel'. split; [apply elem_of_cons; by right | done].
Qed.

Lemma mask_bad_times_where (l : list (list (option Z))) (m m' : mask) :
  mask_bad_times l m = (m', inr tt) →
  masks_where (fun t _ => hit l (shape0 m) t) m m'.
Proof.
  revert m. induction l as [|tuple l IH]; intros m; simpl.
  - intros [= <-]. eapply masks_where_ext; [|apply masks_where_refl].
    intros t f. split; [done | apply hit_nil].
  - unfold ebind.
    destruct (slice_of tuple) as [e|sl] eqn:Hsl; [discriminate|].
    destruct (selected sl (shape0 m)) as [e|sel] eqn:Hsel; [discriminate|].
    intros Hrest. apply IH in Hrest.
    destruct (mask_times_shape m sel) as [H0 _]. rewrite H0 in Hrest.
    eapply masks_where_ext;
      [|exact (masks_where_trans _ _ _ _ _ (mask_times_where m sel) Hrest)].
    intros t f. cbv beta. by rewrite (hit_cons tuple l sl sel).
Qed.

Lemma mask_bad_freqs_where (l : list (list (option Z))) (m m' : mask) :
  mask_bad_freqs l m = (m', inr tt) →
  masks_where (fun _ f => hit l (shape1 m) f) m m'.
Proof.
  revert m. induction l as [|tuple l IH]; intros m; simpl.
  - intros [= <-]. eapply masks_where_ext; [|apply masks_where_refl].
    intros t f. split; [done | apply hit_nil].
  - unfold ebind.
    destruct (slice_of tuple) as [e|sl] eqn:Hsl; [discriminate|].
    destruct (selected sl (shape1 m)) as [e|sel] eqn:Hsel; [discriminate|].
    intros Hrest. apply IH in Hrest.
    destruct (mask_freqs_shape m sel) as [_ H1]. rewrite H1 in Hrest.
    eapply masks_where_ext;
      [|exact (masks_where_trans _ _ _ _ _ (mask_freqs_where m sel) Hrest)].
    intros t f. cbv beta. by rewrite (hit_cons tuple l sl sel).
Qed.

Lemma masks_where_keeps (P : nat → nat → Prop) (m m' : mask) :
  masks_where P m m' → keeps_masked m m'.
Proof.
  intros (H0 & H1 & H). split; [done|]. split; [done|]. intros t f k.
  destruct (H t f k) as [Hsome Htrue]. split; [done|].
  intros Hm. apply Htrue. split; [by rewrite Hm | by left].
Qed.

Lemma keeps_masked_refl (m : mask) : keeps_masked m m.
Proof. by split; [|split]. Qed.

Lemma keeps_masked_trans (m m1 m2 : mask) :
  keeps_masked m m1 → keeps_masked m1 m2 → keeps_masked m m2.
Proof.
  intros (Ha0 & Ha1 & Ha) (Hb0 & Hb1 & Hb).
  split; [congruence|]. split; [congruence|]. intros t f k.
  destruct (Ha t f k) as [Ha_some Ha_true]. destruct (Hb t f k) as [Hb_some Hb_true].
  split; [by rewrite Hb_some | auto].
Qed.

Lemma mask_bad_times_keeps (l : list (list (option Z))) (m m' : mask) (r : exn + unit) :
  mask_bad_times l m = (m', r) → keeps_masked m m'.
Proof.
  revert m. induction l as [|tuple l IH]; intros m; simpl.
  - intros [= <- _]. apply keeps_masked_refl.
  - destruct (ebind _ _) as [e|sel]; [intros [= <- _]; apply keeps_masked_refl|].
    intros Hrest. apply IH in Hrest.
    exact (keeps_masked_trans _ _ _
             (masks_where_keeps _ _ _ (mask_times_where m sel)) Hrest).
Qed.

Lemma mask_bad_freqs_keeps (l : list (list (option Z))) (m m' : mask) (r : exn + unit) :
  mask_bad_freqs l m = (m', r) → keeps_masked m m'.
Proof.
  revert m. induction l as [|tuple l IH]; intros m; simpl.
  - intros [= <- _]. apply keeps_masked_refl.
  - destruct (ebind _ _) as [e|sel]; [intros [= <- _]; apply keeps_masked_refl|].
    intros Hrest. apply IH in Hrest.
    exact (keeps_masked_trans _ _ _
             (masks_where_keeps _ _ _ (mask_freqs_where m sel)) Hrest).
Qed.

(** X11.  Masking bad times and frequencies never unmasks: however it
    ends, also when a tuple makes it raise half way, the mask keeps its
    shape and every entry that was [True] is still [True]. *)
Theorem mask_bad_never_unmasks
  (bad_time_list bad_freq_list : option (list (list (option Z))))
  (m m' : mask) (r : exn + unit) :
  mask_bad bad_time_list bad_freq_list m = (m', r) →
  shape0 m' = shape0 m ∧ shape1 m' = shape1 m ∧
  ∀ t f k,
    (is_Some (entry m' t f k) ↔ is_Some (entry m t f k)) ∧
    (entry m t f k = Some true → entry m' t f k = Some true).
Proof.
  unfold mask_bad. intros Hrun. change (keeps_masked m m').
  destruct bad_time_list as [tl|].
  - destruct (mask_bad_times tl m) as [m1 [e|[]]] eqn:Htimes.
    + injection Hrun as <- _. by eapply mask_bad_times_keeps.
    + apply mask_bad_times_keeps in Htimes.
      destruct bad_freq_list as [fl|].
      * apply mask_bad_freqs_keeps in Hrun. by eapply keeps_masked_trans.
      * by injection Hrun as <- _.
  - destruct bad_freq_list as [fl|].
    + by eapply mask_bad_freqs_keeps.
    + injection Hrun as <- _. apply keeps_masked_refl.
Qed.

Lemma mask_bad_never_unmasks_witness :
  shape0 (mask_bad (Some [[Some 1%Z; Some 2%Z]]) (Some [[]])
            (NdArray 2 [[[true]; [false]]; [[false]; [false]]])).1 = 2 ∧
  (mask_bad (Some [[Some 1%Z; Some 2%Z]]) (Some [[]])
     (NdArray 2 [[[true]; [false]]; [[false]; [false]]])).2 = inl TypeError.
Proof.
  split; [|reflexivity].
  exact (proj1 (mask_bad_never_unmasks (Some [[Some 1%Z; Some 2%Z]]) (Some [[]])
                  (NdArray 2 [[[true]; [false]]; [[false]; [false]]]) _ _
                  (surjective_pairing _))).
Defined.

Lemma mask_bad_where
  (bad_time_list bad_freq_list : option (list (list (option Z))))
  (m m' : mask) :
  mask_bad bad_time_list bad_freq_list m = (m', inr tt) →
  masks_where (fun t f => hit_opt bad_time_list (shape0 m) t
                          ∨ hit_opt bad_freq_list (shape1 m) f) m m'.
Proof.
  unfold mask_bad.
  assert (Htimes : ∀ m1 r1,
    match bad_time_list with Some l => mask_bad_times l m | None => (m, inr tt) end
    = (m1, r1) → r1 = inr tt →
    masks_where (fun t _ => hit_opt bad_time_list (shape0 m) t) m m1).
  { intros m1 r1 H ->. destruct bad_time_list as [tl|]; simpl.
    - by apply mask_bad_times_where.
    - injection H as <-. apply masks_where_refl. }
  destruct (match bad_time_list with
            | Some l => mask_bad_times l m | None => (m, inr tt) end)
    as [m1 [e|[]]] eqn:H1; [discriminate|].
  specialize (Htimes m1 (inr tt) eq_refl eq_refl).
  intros H2.
  assert (Hfreqs : masks_where (fun _ f => hit_opt bad_freq_list (shape1 m1) f) m1 m').
  { destruct bad_freq_list as [fl|]; simpl.
    - by apply mask_bad_freqs_where.
    - injection H2 as <-. apply masks_where_refl. }
  destruct Htimes as (Hs0 & Hs1 & Ht). rewrite Hs1 in Hfreqs.
  exact (masks_where_trans _ _ _ _ _ (conj Hs0 (conj Hs1 Ht)) Hfreqs).
Qed.

(** X12.  When the masking runs to its end, an entry is [True]
    afterwards exactly when it was [True] before, or its time lies in the
    slice of one of the bad-time tuples, or its frequency in the slice of
    one of the bad-frequency tuples. *)
Theorem mask_bad_masks_exactly
  (bad_time_list bad_freq_list : option (list (list (option Z))))
  (m m' : mask)
  (Hrun : mask_bad bad_time_list bad_freq_list m = (m', inr tt)) :
  ∀ t f k,
    entry m' t f k = Some true ↔
    is_Some (entry m t f k) ∧
    (entry m t f k = Some true ∨
     hit_opt bad_time_list (shape0 m) t ∨ hit_opt bad_freq_list (shape1 m) f).
Proof.
  intros t f k.
  destruct (mask_bad_where _ _ _ _ Hrun) as (_ & _ & H). apply H.
Qed.

Lemma mask_bad_masks_exactly_witness :
  entry (mask_bad (Some [[Some 1%Z; Some 2%Z]]) None
           (NdArray 2 [[[true]; [false]]; [[false]; [false]]])).1 1 0 0
  = Some true.
Proof.
  apply (mask_bad_masks_exactly (Some [[Some 1%Z; Some 2%Z]]) None
           (NdArray 2 [[[true]; [false]]; [[false]; [false]]]) _
           (surjective_pairing _) 1 0 0).
  split; [by eexists|]. right. left.
  exists [Some 1%Z; Some 2%Z], (Slice (Some 1%Z) (Some 2%Z) None), [1].
  split; [apply elem_of_cons; by left|]. split; [reflexivity|].
  split; [reflexivity|]. apply elem_of_cons. by left.
Defined.

(** *** What a slice selects *)

Lemma adjust_bounds (len step i : Z) :
  (0 ≤ len)%Z →
  ((0 < step → 0 ≤ adjust len step i ≤ len) ∧
   (step < 0 → -1 ≤ adjust len step i ≤ len - 1))%Z.
Proof.
  intros Hlen. unfold adjust.
  destruct (i <? 0)%Z eqn:H1; destruct (i + len <? 0)%Z eqn:H2;
    destruct (step <? 0)%Z eqn:H3; destruct (len <=? i)%Z eqn:H4; lia.
Qed.

Lemma slice_indices_bounds (s : slice) (len start stop step : Z) :
  (0 ≤ len)%Z →
  slice_indices s len = inr (start, stop, step) →
  ((0 < step ∧ 0 ≤ start ≤ len ∧ 0 ≤ stop ≤ len) ∨
   (step < 0 ∧ -1 ≤ start ≤ len - 1 ∧ -1 ≤ stop ≤ len - 1))%Z.
Proof.
  intros Hlen. unfold slice_indices.
  destruct (default 1 (PlotWaterfall.step s) =? 0)%Z eqn:Hstep; [discriminate|].
  intros [= <- <- <-].
  set (st := default 1%Z (PlotWaterfall.step s)) in *.
  assert (Hst : (st < 0 ∨ 0 < st)%Z) by lia.
  destruct Hst as [Hneg|Hpos].
  - right. split; [done|].
    rewrite (proj2 (Z.ltb_lt st 0) Hneg).
    split.
    + destruct (PlotWaterfall.start s) as [i|]; [|lia].
      by apply (adjust_bounds len st i).
    + destruct (PlotWaterfall.stop s) as [i|]; [|lia].
      by apply (adjust_bounds len st i).
  - left. split; [done|].
    rewrite (proj2 (Z.ltb_ge st 0)) by lia.
    split.
    + destruct (PlotWaterfall.start s) as [i|]; [|lia].
      by apply (adjust_bounds len st i).
    + destruct (PlotWaterfall.stop s) as [i|]; [|lia].
      by apply (adjust_bounds len st i).
Qed.

(** The entries of [range(start, stop, step)] lie between the two ends. *)
Lemma range_entry_bounds (start stop step : Z) (i : nat) :
  (Z.of_nat i < range_length start stop step)%Z →
  ((0 < step → start ≤ start + Z.of_nat i * step < stop) ∧
   (step < 0 → stop < start + Z.of_nat i * step ≤ start))%Z.
Proof.
  unfold range_length. intros Hi. split; intros Hstep.
  - rewrite (proj2 (Z.ltb_ge step 0)) in Hi by lia.
    destruct (start <? stop)%Z eqn:Hlt; [|lia].
    apply Z.ltb_lt in Hlt.
    pose proof (Z.mul_div_le (stop - start - 1) step Hstep) as Hdiv.
    assert (Z.of_nat i ≤ (stop - start - 1) / step)%Z by lia.
    nia.
  - rewrite (proj2 (Z.ltb_lt step 0)) in Hi by lia.
    destruct (stop <? start)%Z eqn:Hlt; [|lia].
    apply Z.ltb_lt in Hlt.
    assert (Hpos : (0 < - step)%Z) by lia.
    pose proof (Z.mul_div_le (start - stop - 1) (- step) Hpos) as Hdiv.
    assert (Z.of_nat i ≤ (start - stop - 1) / - step)%Z by lia.
    nia.
Qed.

(** X13.  The slice made for the masking selects only indices that lie
    on the axis, whatever its bounds and its step: the assignment into the
    mask never reaches past an end of the axis. *)
Theorem selected_in_range (s : slice) (n : nat) (sel : list nat) (t : nat) :
  selected s n = inr sel → t ∈ sel → t < n.
Proof.
  unfold selected, ebind.
  destruct (slice_indices s (Z.of_nat n)) as [e|[[start stop] step]] eqn:Hidx;
    [discriminate|].
  intros [= <-] Hin.
  apply list_elem_of_fmap in Hin as (i & -> & Hi).
  apply elem_of_seq in Hi.
  assert (Hlt : (Z.of_nat i < range_length start stop step)%Z) by lia.
  destruct (range_entry_bounds start stop step i Hlt) as [Hup Hdown].
  destruct (slice_indices_bounds s _ _ _ _ (Nat2Z.is_nonneg n) Hidx)
    as [(Hstep & Hstart & Hstop)|(Hstep & Hstart & Hstop)].
  - specialize (Hup Hstep). lia.
  - specialize (Hdown Hstep). lia.
Qed.

Lemma selected_in_range_witness :
  selected (Slice (Some (-7)%Z) (Some 9%Z) (Some 2%Z)) 4 = inr [0; 2] ∧ 2 < 4.
Proof.
  split; [reflexivity|].
  apply (selected_in_range (Slice (Some (-7)%Z) (Some 9%Z) (Some 2%Z)) 4 [0; 2] 2).
  - reflexivity.
  - apply elem_of_cons. right. apply elem_of_cons. by left.
Defined.

(** A pair of bounds that are not negative selects the indices from the
    first bound up to, and without, the second. *)
Lemma selected_pair (a b : Z) (n : nat) :
  (0 ≤ a)%Z → (0 ≤ b)%Z →
  ∃ sel, selected (Slice (Some a) (Some b) None) n = inr sel ∧
         ∀ t, t ∈ sel ↔ (a ≤ Z.of_nat t < b)%Z ∧ t < n.
Proof.
  intros Ha Hb. unfold selected, ebind, slice_indices. cbn [step start stop default].
  cbn [Z.eqb Z.ltb Z.compare].
  eexists. split; [reflexivity|]. intros t.
  rewrite list_elem_of_fmap. setoid_rewrite elem_of_seq.
  unfold adjust, range_length.
  rewrite (proj2 (Z.ltb_ge a 0)), (proj2 (Z.ltb_ge b 0)) by lia.
  cbn [Z.ltb Z.compare].
  set (lo := if (Z.of_nat n <=? a)%Z then Z.of_nat n else a).
  set (hi := if (Z.of_nat n <=? b)%Z then Z.of_nat n else b).
  assert (Hlo : lo = Z.min a (Z.of_nat n))
    by (unfold lo; destruct (Z.of_nat n <=? a)%Z eqn:E; lia).
  assert (Hhi : hi = Z.min b (Z.of_nat n))
    by (unfold hi; destruct (Z.of_nat n <=? b)%Z eqn:E; lia).
  split.
  - intros (i & -> & Hi).
    destruct (lo <? hi)%Z eqn:Hlt; [|simpl in Hi; lia].
    rewrite Z.div_1_r in Hi. lia.
  - intros [Hab Hn]. exists (Z.to_nat (Z.of_nat t - lo)).
    rewrite (proj2 (Z.ltb_lt lo hi)) by lia.
    rewrite Z.div_1_r. lia.
Qed.

(** *** Cutting to the good samples *)

Lemma nonzero_from_last (i : nat) (b : list bool) (x t : nat) :
  last (nonzero_from i b) = Some x → t ∈ nonzero_from i b → t ≤ x.
Proof.
  revert i. induction b as [|y b IH]; intros i; simpl.
  - intros _ Ht. by apply elem_of_nil in Ht.
  - destruct y; [|apply IH].
    rewrite last_cons. destruct (last (nonzero_from (S i) b)) as [z|] eqn:Hlast.
    + intros [= ->] Ht. apply elem_of_cons in Ht as [->|Ht].
      * apply last_Some_elem_of, elem_of_nonzero_from in Hlast. lia.
      * by apply (IH (S i)).
    + apply last_None in Hlast. rewrite Hlast. intros [= ->] Ht.
      apply list_elem_of_singleton in Ht. lia.
Qed.

(** The first good sample: the least index at which [bad] is [False];
    without any, [IndexError]. *)
Lemma first_good_inr (bad : list bool) (st : nat) :
  first_good bad = inr st →
  bad !! st = Some false ∧ ∀ t, bad !! t = Some false → st ≤ t.
Proof.
  unfold first_good.
  destruct (np_where (logical_not bad)) as [|x l] eqn:Hwhere; [discriminate|].
  intros [= ->]. split.
  - apply elem_of_np_where_not. rewrite Hwhere. apply elem_of_cons. by left.
  - intros t Ht. apply elem_of_np_where_not in Ht. rewrite Hwhere in Ht.
    apply elem_of_cons in Ht as [->|Ht]; [lia|].
    apply Nat.lt_le_incl. by eapply nonzero_from_head.
Qed.

Lemma last_good_inr (bad : list bool) (ed : nat) :
  last_good bad = inr ed →
  bad !! ed = Some false ∧ ∀ t, bad !! t = Some false → t ≤ ed.
Proof.
  unfold last_good.
  destruct (last (np_where (logical_not bad))) as [x|] eqn:Hlast; [|discriminate].
  intros [= ->]. split.
  - apply elem_of_np_where_not. by apply last_Some_elem_of.
  - intros t Ht. apply elem_of_np_where_not in Ht.
    by eapply nonzero_from_last.
Qed.

Lemma first_good_inl (bad : list bool) (e : exn) :
  first_good bad = inl e → e = IndexError ∧ ∀ t, bad !! t ≠ Some false.
Proof.
  unfold first_good.
  destruct (np_where (logical_not bad)) as [|x l] eqn:Hwhere; [|discriminate].
  intros [= <-]. split; [done|]. intros t Ht.
  apply elem_of_np_where_not in Ht. rewrite Hwhere in Ht. by apply elem_of_nil in Ht.
Qed.

Lemma last_good_inl (bad : list bool) (e : exn) :
  last_good bad = inl e → e = IndexError ∧ ∀ t, bad !! t ≠ Some false.
Proof.
  unfold last_good.
  destruct (last (np_where (logical_not bad))) as [x|] eqn:Hlast; [discriminate|].
  intros [= <-]. split; [done|]. intros t Ht.
  apply elem_of_np_where_not in Ht. apply last_None in Hlast. rewrite Hlast in Ht.
  by apply elem_of_nil in Ht.
Qed.

Lemma forallb_id_false (l : list bool) :
  forallb (fun b => b) l = false ↔ ∃ k, l !! k = Some false.
Proof.
  induction l as [|b l IH]; simpl.
  - split; [done | by intros [k Hk]].
  - destruct b; simpl.
    + rewrite IH. split.
      * intros [k Hk]. by exists (S k).
      * intros [[|k] Hk]; [done | by exists k].
    + split; [by exists 0 | done].
Qed.

Lemma all_true_false (cells : list (list bool)) :
  all_true cells = false ↔ ∃ cell, cell ∈ cells ∧ ∃ k, cell !! k = Some false.
Proof.
  unfold all_true. induction cells as [|c cells IH]; simpl.
  - split; [done|]. intros (cell & Hin & _). by apply elem_of_nil in Hin.
  - rewrite andb_false_iff, IH, forallb_id_false. split.
    + intros [Hk|(cell & Hin & Hk)].
      * exists c. split; [apply elem_of_cons; by left | done].
      * exists cell. split; [apply elem_of_cons; by right | done].
    + intros (cell & Hin & Hk). apply elem_of_cons in Hin as [->|Hin].
      * by left.
      * right. by exists cell.
Qed.

Lemma entry_Some (m : mask) (t f k : nat) (b : bool) :
  entry m t f k = Some b ↔
  ∃ row cell, rows m !! t = Some row ∧ row !! f = Some cell ∧ cell !! k = Some b.
Proof.
  unfold entry, get. split.
  - destruct (rows m !! t) as [row|] eqn:Hrow; simpl; [|done].
    destruct (row !! f) as [cell|] eqn:Hcell; simpl; [|done].
    intros Hk. by exists row, cell.
  - intros (row & cell & -> & Hf & Hk). simpl. rewrite Hf. done.
Qed.

(** What [np.all] reports as not bad is what has an unmasked entry. *)
Lemma bad_times_good (m : mask) (t : nat) :
  bad_times m !! t = Some false ↔ good_time m t.
Proof.
  unfold bad_times, good_time. rewrite list_lookup_fmap. split.
  - destruct (rows m !! t) as [row|] eqn:Hrow; simpl; [|done].
    intros [= Hall]. apply all_true_false in Hall as (cell & Hin & k & Hk).
    apply list_elem_of_lookup in Hin as [f Hf]. split.
    + apply lookup_lt_is_Some. by exists row.
    + exists f, k. apply entry_Some. by exists row, cell.
  - intros (_ & f & k & Hentry).
    apply entry_Some in Hentry as (row & cell & -> & Hf & Hk). simpl. f_equal.
    apply all_true_false. exists cell. split; [|by exists k].
    apply list_elem_of_lookup. by exists f.
Qed.

Lemma bad_freqs_good (m : mask) (f : nat) :
  bad_freqs m !! f = Some false ↔ good_freq m f.
Proof.
  unfold bad_freqs, good_freq. rewrite list_lookup_fmap. split.
  - destruct (seq 0 (shape1 m) !! f) as [f'|] eqn:Hseq; simpl; [|done].
    apply lookup_seq in Hseq as [-> Hf]. simpl.
    intros [= Hall]. apply all_true_false in Hall as (cell & Hin & k & Hk).
    apply list_elem_of_omap in Hin as (row & Hin & Hcell).
    apply list_elem_of_lookup in Hin as [t Ht]. split; [done|].
    exists t, k. apply entry_Some. by exists row, cell.
  - intros (Hf & t & k & Hentry).
    rewrite lookup_seq_lt by done. simpl. f_equal.
    apply entry_Some in Hentry as (row & cell & Ht & Hcell & Hk).
    apply all_true_false. exists cell. split; [|by exists k].
    apply list_elem_of_omap. exists row. split; [|done].
    apply list_elem_of_lookup. by exists t.
Qed.

Lemma slice_list_lookup {A} (st ed : nat) (l : list A) (i : nat) :
  slice_list st ed l !! i = if decide (i < ed - st) then l !! (st + i) else None.
Proof.
  unfold slice_list. rewrite lookup_take.
  destruct (decide (i < ed - st)); [apply lookup_drop | done].
Qed.

Lemma slice_list_length {A} (st ed : nat) (l : list A) :
  length (slice_list st ed l) = Nat.min ed (length l) - Nat.min st (length l).
Proof. unfold slice_list. rewrite length_take, length_drop. lia. Qed.

(** What the cut returns, for the first and the last good time [st] and
    [ed] and the first and the last good frequency [fst] and [fed]. *)
Lemma cut_to_good_inr {A} (vis_mask : mask) (vis1 out : ndarray A) :
  cut_to_good vis_mask vis1 = inr out →
  ∃ st ed fst fed,
    first_good (bad_times vis_mask) = inr st ∧
    last_good (bad_times vis_mask) = inr ed ∧
    first_good (bad_freqs vis_mask) = inr fst ∧
    last_good (bad_freqs vis_mask) = inr fed ∧
    out = NdArray (Nat.min fed (shape1 vis1) - Nat.min fst (shape1 vis1))
            (slice_list fst fed <$> slice_list st ed (rows vis1)).
Proof.
  unfold cut_to_good, ebind.
  destruct (first_good (bad_times vis_mask)) as [e|st]; [discriminate|].
  destruct (last_good (bad_times vis_mask)) as [e|ed]; [discriminate|].
  destruct (first_good (bad_freqs vis_mask)) as [e|fst]; [discriminate|].
  destruct (last_good (bad_freqs vis_mask)) as [e|fed]; [discriminate|].
  cbn [shape1 rows]. intros [= <-]. by exists st, ed, fst, fed.
Qed.

Lemma cut_get {A} (w : nat) (st ed fst fed : nat) (vis1 : ndarray A) (t f : nat) :
  get (NdArray w (slice_list fst fed <$> slice_list st ed (rows vis1))) t f =
  if decide (t < ed - st ∧ f < fed - fst) then get vis1 (st + t) (fst + f) else None.
Proof.
  unfold get. cbn [rows]. rewrite list_lookup_fmap, slice_list_lookup.
  destruct (decide (t < ed - st)) as [Ht|Ht].
  - destruct (rows vis1 !! (st + t)) as [row|]; simpl.
    + rewrite slice_list_lookup.
      destruct (decide (f < fed - fst)) as [Hf|Hf].
      * by rewrite decide_True.
      * rewrite decide_False; [done | tauto].
    + by destruct (decide _).
  - simpl. rewrite decide_False; [done | tauto].
Qed.

Lemma cut_to_good_inl {A} (vis_mask : mask) (vis1 : ndarray A) (e : exn) :
  cut_to_good vis_mask vis1 = inl e →
  e = IndexError ∧
  ((∀ t, ¬ good_time vis_mask t) ∨ (∀ f, ¬ good_freq vis_mask f)).
Proof.
  unfold cut_to_good, ebind.
  destruct (first_good (bad_times vis_mask)) as [e1|st] eqn:H1.
  { intros [= <-]. apply first_good_inl in H1 as [-> Hnone]. split; [done|].
    left. intros t Ht. by apply bad_times_good, Hnone in Ht. }
  destruct (last_good (bad_times vis_mask)) as [e2|ed] eqn:H2.
  { intros [= <-]. apply last_good_inl in H2 as [-> Hnone]. split; [done|].
    left. intros t Ht. by apply bad_times_good, Hnone in Ht. }
  destruct (first_good (bad_freqs vis_mask)) as [e3|fst] eqn:H3.
  { intros [= <-]. apply first_good_inl in H3 as [-> Hnone]. split; [done|].
    right. intros f Hf. by apply bad_freqs_good, Hnone in Hf. }
  destruct (last_good (bad_freqs vis_mask)) as [e4|fed] eqn:H4.
  { intros [= <-]. apply last_good_inl in H4 as [-> Hnone]. split; [done|].
    right. intros f Hf. by apply bad_freqs_good, Hnone in Hf. }
  discriminate.
Qed.

(** X14.  Cutting to the good samples raises exactly when no time, or no
    frequency, has an unmasked entry, and what it raises then is
    [IndexError]. *)
Theorem cut_to_good_raises {A : Type} (vis_mask : mask) (vis1 : ndarray A) (e : exn) :
  cut_to_good vis_mask vis1 = inl e ↔
  e = IndexError ∧
  ((∀ t, ¬ good_time vis_mask t) ∨ (∀ f, ¬ good_freq vis_mask f)).
Proof.
  split; [apply cut_to_good_inl|].
  intros [-> Hnone].
  destruct (cut_to_good vis_mask vis1) as [e|out] eqn:Hcut.
  - apply cut_to_good_inl in Hcut as [-> _]. done.
  - exfalso. apply cut_to_good_inr in Hcut as (st & ed & fst & fed & H1 & _ & H3 & _).
    apply first_good_inr in H1 as [H1 _]. apply first_good_inr in H3 as [H3 _].
    apply bad_times_good in H1. apply bad_freqs_good in H3.
    destruct Hnone as [Hnone|Hnone]; [by apply (Hnone st) | by apply (Hnone fst)].
Qed.

(** X15.  What the cut keeps, for the first and the last good time [st]
    and [ed] and the first and the last good frequency [fst] and [fed]:
    the times from [st] up to and without [ed] and the frequencies from
    [fst] up to and without [fed].  The last good time and the last good
    frequency are not in the result. *)
Theorem cut_to_good_window {A : Type} (vis_mask : mask) (vis1 out : ndarray A)
  (Hcut : cut_to_good vis_mask vis1 = inr out) :
  ∃ st ed fst fed,
    (good_time vis_mask st ∧ good_time vis_mask ed ∧
     ∀ t, good_time vis_mask t → st ≤ t ≤ ed) ∧
    (good_freq vis_mask fst ∧ good_freq vis_mask fed ∧
     ∀ f, good_freq vis_mask f → fst ≤ f ≤ fed) ∧
    shape0 out = Nat.min ed (shape0 vis1) - Nat.min st (shape0 vis1) ∧
    shape1 out = Nat.min fed (shape1 vis1) - Nat.min fst (shape1 vis1) ∧
    ∀ t f, get out t f =
      if decide (t < ed - st ∧ f < fed - fst)
      then get vis1 (st + t) (fst + f) else None.
Proof.
  apply cut_to_good_inr in Hcut as (st & ed & fst & fed & H1 & H2 & H3 & H4 & ->).
  apply first_good_inr in H1 as [H1 H1min]. apply last_good_inr in H2 as [H2 H2max].
  apply first_good_inr in H3 as [H3 H3min]. apply last_good_inr in H4 as [H4 H4max].
  exists st, ed, fst, fed. split; [|split; [|split; [|split]]].
  - split; [by apply bad_times_good|]. split; [by apply bad_times_good|].
    intros t Ht. apply bad_times_good in Ht. split; [by apply H1min | by apply H2max].
  - split; [by apply bad_freqs_good|]. split; [by apply bad_freqs_good|].
    intros f Hf. apply bad_freqs_good in Hf. split; [by apply H3min | by apply H4max].
  - unfold shape0. cbn [rows]. by rewrite length_fmap, slice_list_length.
  - done.
  - intros t f. apply cut_get.
Qed.

Lemma cut_to_good_window_witness :
  ∃ st ed fst fed,
    (good_time edge_mask st ∧ good_time edge_mask ed ∧
     ∀ t, good_time edge_mask t → st ≤ t ≤ ed) ∧
    (good_freq edge_mask fst ∧ good_freq edge_mask fed ∧
     ∀ f, good_freq edge_mask f → fst ≤ f ≤ fed) ∧
    shape0 (NdArray 2 [[11; 12]; [21; 22]])
    = Nat.min ed (shape0 grid) - Nat.min st (shape0 grid) ∧
    shape1 (NdArray 2 [[11; 12]; [21; 22]])
    = Nat.min fed (shape1 grid) - Nat.min fst (shape1 grid) ∧
    ∀ t f, get (NdArray 2 [[11; 12]; [21; 22]]) t f =
      if decide (t < ed - st ∧ f < fed - fst)
      then get grid (st + t) (fst + f) else None.
Proof.
  exact (cut_to_good_window edge_mask grid (NdArray 2 [[11; 12]; [21; 22]]) eq_refl).
Defined.

(** X16.  When the first and the last time and the first and the last
    frequency each have an unmasked entry, so that there is nothing to cut,
    the result still lacks the last time and the last frequency; the rest
    is as in the array. *)
Theorem cut_to_good_drops_the_last {A : Type} (vis_mask : mask) (vis1 : ndarray A)
  (Ht0 : good_time vis_mask 0)
  (Ht1 : good_time vis_mask (shape0 vis_mask - 1))
  (Hf0 : good_freq vis_mask 0)
  (Hf1 : good_freq vis_mask (shape1 vis_mask - 1)) :
  ∃ out, cut_to_good vis_mask vis1 = inr out ∧
    ∀ t f, get out t f =
      if decide (t < shape0 vis_mask - 1 ∧ f < shape1 vis_mask - 1)
      then get vis1 t f else None.
Proof.
  destruct (cut_to_good vis_mask vis1) as [e|out] eqn:Hcut.
  { apply cut_to_good_inl in Hcut as [_ [Hnone|Hnone]];
      [by destruct (Hnone 0) | by destruct (Hnone 0)]. }
  exists out. split; [done|].
  apply cut_to_good_inr in Hcut as (st & ed & fst & fed & H1 & H2 & H3 & H4 & ->).
  apply first_good_inr in H1 as [_ H1min]. apply last_good_inr in H2 as [H2 H2max].
  apply first_good_inr in H3 as [_ H3min]. apply last_good_inr in H4 as [H4 H4max].
  apply bad_times_good in Ht0, Ht1, H2. apply bad_freqs_good in Hf0, Hf1, H4.
  destruct H2 as [Hed _]. destruct H4 as [Hfed _].
  specialize (H1min 0 Ht0). specialize (H2max _ Ht1).
  specialize (H3min 0 Hf0). specialize (H4max _ Hf1).
  assert (st = 0) as -> by lia. assert (fst = 0) as -> by lia.
  assert (ed = shape0 vis_mask - 1) as -> by lia.
  assert (fed = shape1 vis_mask - 1) as -> by lia.
  intros t f. rewrite cut_get. by rewrite !Nat.sub_0_r.
Qed.

Lemma cut_to_good_drops_the_last_witness :
  ∃ out, cut_to_good (NdArray 4 (replicate 4 (replicate 4 [false]))) grid = inr out ∧
    ∀ t f, get out t f =
      if decide (t < 4 - 1 ∧ f < 4 - 1) then get grid t f else None.
Proof.
  apply (cut_to_good_drops_the_last (NdArray 4 (replicate 4 (replicate 4 [false]))) grid).
  - split; [unfold shape0; simpl; lia | by exists 0, 0].
  - split; [unfold shape0; simpl; lia | by exists 0, 0].
  - split; [unfold shape0; simpl; lia | by exists 0, 0].
  - split; [unfold shape0; simpl; lia | by exists 0, 0].
Defined.

(** *** Which tuples the masking accepts *)

Lemma selected_runs (sl : slice) (n : nat) :
  match selected sl n with
  | inr _ => step sl ≠ Some 0%Z
  | inl e => step sl = Some 0%Z ∧ e = ValueError
  end.
Proof.
  unfold selected, ebind, slice_indices.
  destruct (step sl) as [z|]; simpl; [|done].
  destruct (Z.eqb_spec z 0) as [->|Hz]; [done|]. congruence.
Qed.

Lemma tuple_runs (tuple : list (option Z)) (n : nat) :
  match (try! sl := slice_of tuple in selected sl n) with
  | inr _ => slice_tuple_ok tuple
  | inl e => ¬ slice_tuple_ok tuple ∧ (e = TypeError ∨ e = ValueError)
  end.
Proof.
  unfold slice_tuple_ok.
  destruct tuple as [|a [|b [|s [|x rest]]]]; simpl.
  - split; [lia | by left].
  - pose proof (selected_runs (Slice None a None) n) as H.
    destruct (selected _ n); simpl in H; [by destruct H|]. split; [lia|done].
  - pose proof (selected_runs (Slice a b None) n) as H.
    destruct (selected _ n); simpl in H; [by destruct H|]. split; [lia|done].
  - pose proof (selected_runs (Slice a b s) n) as H.
    destruct (selected _ n); simpl in H.
    + destruct H as [-> ->]. split; [|by right]. intros [_ Hs]. by apply Hs.
    + split; [lia|]. congruence.
  - split; [lia | by left].
Qed.

Lemma mask_bad_times_runs (l : list (list (option Z))) (m : mask) :
  match (mask_bad_times l m).2 with
  | inr _ => Forall slice_tuple_ok l
  | inl e => ¬ Forall slice_tuple_ok l ∧ (e = TypeError ∨ e = ValueError)
  end.
Proof.
  revert m. induction l as [|tuple l IH]; intros m; simpl; [done|].
  pose proof (tuple_runs tuple (shape0 m)) as Htuple.
  destruct (ebind _ _) as [e|sel]; simpl.
  - destruct Htuple as [Hbad Hkind]. split; [|done].
    intros Hall. apply Forall_cons in Hall as [? _]. by apply Hbad.
  - specialize (IH (mask_times m sel)).
    destruct (mask_bad_times l (mask_times m sel)).2 as [e|[]].
    + destruct IH as [Hbad Hkind]. split; [|done].
      intros Hall. apply Forall_cons in Hall as [_ ?]. by apply Hbad.
    + by apply Forall_cons.
Qed.

Lemma mask_bad_freqs_runs (l : list (list (option Z))) (m : mask) :
  match (mask_bad_freqs l m).2 with
  | inr _ => Forall slice_tuple_ok l
  | inl e => ¬ Forall slice_tuple_ok l ∧ (e = TypeError ∨ e = ValueError)
  end.
Proof.
  revert m. induction l as [|tuple l IH]; intros m; simpl; [done|].
  pose proof (tuple_runs tuple (shape1 m)) as Htuple.
  destruct (ebind _ _) as [e|sel]; simpl.
  - destruct Htuple as [Hbad Hkind]. split; [|done].
    intros Hall. apply Forall_cons in Hall as [? _]. by apply Hbad.
  - specialize (IH (mask_freqs m sel)).
    destruct (mask_bad_freqs l (mask_freqs m sel)).2 as [e|[]].
    + destruct IH as [Hbad Hkind]. split; [|done].
      intros Hall. apply Forall_cons in Hall as [_ ?]. by apply Hbad.
    + by apply Forall_cons.
Qed.

(** X17.  The masking runs to its end exactly when every tuple of the two
    lists has one to three entries and no step of 0, whatever the bounds in
    the tuples and the shape of the mask: bounds past the ends of an axis
    are clipped.  When it does not, it raises [TypeError] or [ValueError],
    and never [IndexError]. *)
Theorem mask_bad_runs_iff
  (bad_time_list bad_freq_list : option (list (list (option Z)))) (m : mask) :
  ((mask_bad bad_time_list bad_freq_list m).2 = inr tt ↔
   Forall slice_tuple_ok (default [] bad_time_list) ∧
   Forall slice_tuple_ok (default [] bad_freq_list)) ∧
  ∀ e, (mask_bad bad_time_list bad_freq_list m).2 = inl e →
       e = TypeError ∨ e = ValueError.
Proof.
  unfold mask_bad.
  assert (Htimes :
    match (match bad_time_list with
           | Some l => mask_bad_times l m | None => (m, inr tt) end).2 with
    | inr _ => Forall slice_tuple_ok (default [] bad_time_list)
    | inl e => ¬ Forall slice_tuple_ok (default [] bad_time_list)
               ∧ (e = TypeError ∨ e = ValueError)
    end).
  { destruct bad_time_list as [l|]; simpl; [apply mask_bad_times_runs | done]. }
  destruct (match bad_time_list with
            | Some l => mask_bad_times l m | None => (m, inr tt) end)
    as [m1 [e1|[]]]; simpl in Htimes.
  { destruct Htimes as [Hbad Hkind]. simpl. split.
    - split; [done | by intros [? _]].
    - by intros e [= <-]. }
  assert (Hfreqs :
    match (match bad_freq_list with
           | Some l => mask_bad_freqs l m1 | None => (m1, inr tt) end).2 with
    | inr _ => Forall slice_tuple_ok (default [] bad_freq_list)
    | inl e => ¬ Forall slice_tuple_ok (default [] bad_freq_list)
               ∧ (e = TypeError ∨ e = ValueError)
    end).
  { destruct bad_freq_list as [l|]; simpl; [apply mask_bad_freqs_runs | done]. }
  destruct (match bad_freq_list with
            | Some l => mask_bad_freqs l m1 | None => (m1, inr tt) end)
    as [m2 [e2|[]]]; simpl in Hfreqs; simpl.
  - destruct Hfreqs as [Hbad Hkind]. split.
    + split; [done | by intros [_ ?]].
    + by intros e [= <-].
  - split; [done | by intros e].
Qed.

(** X18.  One pair of bounds that are not negative for the times and one
    for the frequencies: the masking runs to its end, and an entry is
    [True] afterwards exactly when it was before, or its time is from the
    first bound of the time pair up to and without the second, or its
    frequency is so for the frequency pair.  Bounds past the end of an axis
    mask up to its end. *)
Theorem mask_bad_pairs (a b c d : Z) (m : mask)
  (Hrect : rectangular m)
  (Ha : (0 ≤ a)%Z) (Hb : (0 ≤ b)%Z) (Hc : (0 ≤ c)%Z) (Hd : (0 ≤ d)%Z) :
  ∃ m', mask_bad (Some [[Some a; Some b]]) (Some [[Some c; Some d]]) m
        = (m', inr tt) ∧
    ∀ t f k,
      entry m' t f k = Some true ↔
      is_Some (entry m t f k) ∧
      (entry m t f k = Some true ∨
       (a ≤ Z.of_nat t < b)%Z ∨ (c ≤ Z.of_nat f < d)%Z).
Proof.
  destruct (selected_pair a b (shape0 m) Ha Hb) as (selt & Hselt & Ht).
  destruct (selected_pair c d (shape1 m) Hc Hd) as (self & Hself & Hf).
  exists (mask_freqs (mask_times m selt) self). split.
  - unfold mask_bad. cbn [mask_bad_times slice_of ebind]. rewrite Hselt.
    cbn [mask_bad_freqs slice_of ebind].
    destruct (mask_times_shape m selt) as [_ ->]. by rewrite Hself.
  - intros t f k.
    destruct (mask_freqs_where (mask_times m selt) self) as (_ & _ & Hfreqs).
    destruct (mask_times_where m selt) as (_ & _ & Htimes).
    destruct (Hfreqs t f k) as [Hsome2 Htrue2].
    destruct (Htimes t f k) as [Hsome1 Htrue1].
    rewrite Htrue2, Htrue1, Hsome1, Ht, Hf.
    split.
    + intros [Hsome [[_ [?|[? _]]]|[? _]]]; tauto.
    + intros [Hsome Hcases]. split; [done|].
      assert (Hlt : t < shape0 m ∧ f < shape1 m).
      { destruct Hsome as [x Hx].
        apply entry_Some in Hx as (row & cell & Hrow & Hcell & _).
        split; [apply lookup_lt_is_Some; by exists row|].
        unfold rectangular in Hrect. rewrite Forall_forall in Hrect.
        rewrite <- (Hrect row) by (apply list_elem_of_lookup; by exists t).
        apply lookup_lt_is_Some. by exists cell. }
      destruct Hcases as [?|[?|?]]; [by left; split; [|left]| |].
      * left. split; [done|]. right. tauto.
      * right. tauto.
Qed.

Lemma mask_bad_pairs_witness :
  ∃ m', mask_bad (Some [[Some 1%Z; Some 9%Z]]) (Some [[Some 0%Z; Some 1%Z]])
          (NdArray 4 (replicate 4 (replicate 4 [false])))
        = (m', inr tt) ∧
    ∀ t f k,
      entry m' t f k = Some true ↔
      is_Some (entry (NdArray 4 (replicate 4 (replicate 4 [false]))) t f k) ∧
      (entry (NdArray 4 (replicate 4 (replicate 4 [false]))) t f k = Some true ∨
       (1 ≤ Z.of_nat t < 9)%Z ∨ (0 ≤ Z.of_nat f < 1)%Z).
Proof.
  apply (mask_bad_pairs 1 9 0 1 (NdArray 4 (replicate 4 (replicate 4 [false])))).
  - unfold rectangular. simpl. repeat constructor.
  - lia.
  - lia.
  - lia.
  - lia.
Defined.

(** *** An indicator that does not fit the time axis *)

Lemma get_past_end {A} (a : ndarray A) (t f : nat) :
  shape0 a ≤ t → get a t f = None.
Proof.
  intros Ht. unfold get. by rewrite (lookup_ge_None_2 (rows a) t).
Qed.

Lemma getitem_col_past_end {A} (a : ndarray A) (idx : list nat) (f t : nat) :
  t ∈ idx → shape0 a ≤ t → getitem_col a idx f = inl IndexError.
Proof.
  intros Hin Ht. destruct (getitem_col a idx f) as [e|ys] eqn:Hget.
  - unfold getitem_col in Hget. by destruct (mapM _ idx).
  - apply (getitem_col_inr a idx f ys Hget) in Hin as [x Hx].
    by rewrite get_past_end in Hx.
Qed.

Lemma in_range_past_end (n : nat) (idx : list nat) (t : nat) :
  t ∈ idx → n ≤ t → in_range n idx = false.
Proof.
  intros Hin Ht. destruct (in_range n idx) eqn:Hrange; [|done].
  pose proof (proj1 (in_range_spec n idx) Hrange t Hin). lia.
Qed.

(** X19.  Noise flagging without interpolation raises [IndexError]
    exactly when the indicator is true at an index past the last time of
    the array; indices past the end at which it is false do no harm, and
    nothing else is raised. *)
Theorem flag_ns_raises_iff
  (spline : list nat → list float → exn + (nat → float))
  (ts : gmap string (list bool)) (vis vis_mask : loc) (h : heap)
  (d : dtype) (a : ndarray complex) (ns_on : list bool) (e : exn)
  (Hvis : h !! vis = Some (ComplexArray d a))
  (Hts : ts !! "ns_on"%string = Some ns_on) :
  (plot_vis1 spline (Params false true false) ts vis vis_mask h).2 = inl e ↔
  e = IndexError ∧ ∃ t, shape0 a ≤ t ∧ ns_on !! t = Some true.
Proof.
  rewrite (plot_vis1_flag spline ts vis vis_mask h d a ns_on Hvis Hts).
  unfold setitem_rows.
  destruct (in_range (shape0 a) (np_where ns_on)) eqn:Hrange; simpl.
  - split; [done|]. intros [_ (t & Ht & Hon)]. exfalso.
    assert (Hin : t ∈ np_where ns_on) by (by apply elem_of_np_where).
    pose proof (proj1 (in_range_spec _ _) Hrange t Hin). lia.
  - split.
    + intros [= <-]. split; [done|].
      destruct (decide (Exists (fun t => shape0 a ≤ t) (np_where ns_on)))
        as [Hex|Hall].
      * apply Exists_exists in Hex as (t & Hin & Ht). exists t.
        split; [done | by apply elem_of_np_where].
      * exfalso. apply not_Exists_Forall in Hall; [|intros t; apply _].
        rewrite Forall_forall in Hall.
        assert (Htrue : in_range (shape0 a) (np_where ns_on) = true).
        { apply in_range_spec. intros t Hin. specialize (Hall t Hin). simpl in Hall. lia. }
        congruence.
    + intros [-> _]. done.
Qed.

Lemma flag_ns_raises_iff_witness :
  (plot_vis1 linear_spline (Params false true false)
     {[ "ns_on"%string := [false; false; false; false; false; true] ]}
     1%positive 2%positive short_heap).2 = inl IndexError ↔
  IndexError = IndexError ∧
  ∃ t, shape0 (ramp 4 1) ≤ t ∧
       [false; false; false; false; false; true] !! t = Some true.
Proof.
  exact (flag_ns_raises_iff linear_spline
           {[ "ns_on"%string := [false; false; false; false; false; true] ]}
           1%positive 2%positive short_heap complex128 (ramp 4 1)
           [false; false; false; false; false; true] IndexError eq_refl eq_refl).
Defined.

Section LongIndicator.

Variable InterpolatedUnivariateSpline :
  list nat -> list float -> exn + (nat -> float).

Lemma channel_off_past_end (d : dtype) (on off : list nat) (fi : nat)
  (a : ndarray complex) (t : nat) :
  t ∈ off → shape0 a ≤ t →
  interpolate_channel InterpolatedUnivariateSpline d on off fi a = inl IndexError.
Proof.
  intros Hin Ht. unfold interpolate_channel.
  by rewrite (getitem_col_past_end a off fi t Hin Ht).
Qed.

Lemma channel_on_past_end (d : dtype) (on off : list nat) (fi : nat)
  (a : ndarray complex) (t : nat) :
  t ∈ on → shape0 a ≤ t →
  ∃ e, interpolate_channel InterpolatedUnivariateSpline d on off fi a = inl e.
Proof.
  intros Hin Ht. unfold interpolate_channel, ebind.
  destruct (getitem_col a off fi) as [e|ys]; [by exists e|].
  destruct (InterpolatedUnivariateSpline off (real <$> ys)) as [e|itp_real];
    [by exists e|].
  destruct (InterpolatedUnivariateSpline off (imag <$> ys)) as [e|itp_imag];
    [by exists e|].
  exists IndexError. unfold setitem_col.
  by rewrite (in_range_past_end (shape0 a) on t Hin Ht).
Qed.

End LongIndicator.

(** X20.  Interpolation with an indicator that is false at an index past
    the last time of the array raises [IndexError] for every interpolator,
    as soon as the array has a channel: the samples are read before the
    interpolator is called. *)
Theorem interpolate_ns_off_past_end
  (spline : list nat → list float → exn + (nat → float))
  (ts : gmap string (list bool)) (vis vis_mask : loc) (h : heap)
  (d : dtype) (a : ndarray complex) (ns_on : list bool) (t : nat)
  (Hvis : h !! vis = Some (ComplexArray d a))
  (Hts : ts !! "ns_on"%string = Some ns_on)
  (Hchan : 0 < shape1 a)
  (Ht : shape0 a ≤ t)
  (Hoff : ns_on !! t = Some false) :
  (plot_vis1 spline (Params false true true) ts vis vis_mask h).2 = inl IndexError.
Proof.
  rewrite (plot_vis1_interpolate spline ts vis vis_mask h d a ns_on Hvis Hts).
  cbn zeta. cbn [snd].
  destruct (shape1 a) as [|n] eqn:Hn; [lia|].
  cbn [seq iterate].
  rewrite (channel_off_past_end spline d _ _ 0 a t); [done | | done].
  by apply elem_of_np_where_not.
Qed.

Lemma interpolate_ns_off_past_end_witness :
  (plot_vis1 linear_spline (Params false true true)
     {[ "ns_on"%string := [true; false; false; false; false] ]}
     1%positive 2%positive short_heap).2 = inl IndexError.
Proof.
  apply (interpolate_ns_off_past_end linear_spline
           {[ "ns_on"%string := [true; false; false; false; false] ]}
           1%positive 2%positive short_heap complex128 (ramp 4 1)
           [true; false; false; false; false] 4).
  - reflexivity.
  - reflexivity.
  - simpl. lia.
  - unfold shape0. simpl. lia.
  - reflexivity.
Defined.

(** X21.  Interpolation with an indicator longer than the time axis of
    the array never returns, whatever the interpolator does, as soon as the
    array has a channel: it ends in an exception. *)
Theorem interpolate_ns_long_indicator_raises
  (spline : list nat → list float → exn + (nat → float))
  (ts : gmap string (list bool)) (vis vis_mask : loc) (h : heap)
  (d : dtype) (a : ndarray complex) (ns_on : list bool)
  (Hvis : h !! vis = Some (ComplexArray d a))
  (Hts : ts !! "ns_on"%string = Some ns_on)
  (Hchan : 0 < shape1 a)
  (Hlong : shape0 a < length ns_on) :
  ∃ e, (plot_vis1 spline (Params false true true) ts vis vis_mask h).2 = inl e.
Proof.
  rewrite (plot_vis1_interpolate spline ts vis vis_mask h d a ns_on Hvis Hts).
  cbn zeta. cbn [snd].
  destruct (shape1 a) as [|n] eqn:Hn; [lia|].
  cbn [seq iterate].
  destruct (lookup_lt_is_Some_2 ns_on (shape0 a) Hlong) as [b Hb].
  destruct b.
  - destruct (channel_on_past_end spline d (np_where ns_on)
                (np_where (logical_not ns_on)) 0 a (shape0 a)) as [e He];
      [by apply elem_of_np_where | done |].
    rewrite He. by exists e.
  - rewrite (channel_off_past_end spline d _ _ 0 a (shape0 a));
      [by exists IndexError | by apply elem_of_np_where_not | done].
Qed.

Lemma interpolate_ns_long_indicator_raises_witness :
  ∃ e, (plot_vis1 linear_spline (Params false true true)
          {[ "ns_on"%string := [false; false; true; false; false; false; true] ]}
          1%positive 2%positive short_heap).2 = inl e.
Proof.
  apply (interpolate_ns_long_indicator_raises linear_spline
           {[ "ns_on"%string := [false; false; true; false; false; false; true] ]}
           1%positive 2%positive short_heap complex128 (ramp 4 1)
           [false; false; true; false; false; false; true]).
  - reflexivity.
  - reflexivity.
  - simpl. lia.
  - unfold shape0. simpl. lia.
Defined.

(** *** Masking, then cutting *)

Lemma entry_false_after (P : nat → nat → Prop) (m m' : mask) (t f k : nat) :
  masks_where P m m' →
  (entry m' t f k = Some false ↔ entry m t f k = Some false ∧ ¬ P t f).
Proof.
  intros (_ & _ & H). destruct (H t f k) as [Hsome Htrue]. split.
  - intros Hfalse.
    assert (Hs : is_Some (entry m t f k)) by (apply Hsome; by rewrite Hfalse).
    assert (Hnot : ¬ (is_Some (entry m t f k)
                      ∧ (entry m t f k = Some true ∨ P t f))).
    { intros Hyes. apply Htrue in Hyes. congruence. }
    destruct Hs as [[|] Hb]; [exfalso; apply Hnot; split; [by rewrite Hb | by left]|].
    split; [done|]. intros HP. apply Hnot. split; [by rewrite Hb | by right].
  - intros [Hfalse HP].
    assert (Hs : is_Some (entry m' t f k)) by (apply Hsome; by rewrite Hfalse).
    destruct Hs as [[|] Hb]; [|done].
    apply Htrue in Hb as [_ [Hb|Hb]]; [congruence | done].
Qed.

(** X22.  After a masking that ran to its end, the times that the cut
    counts as good are the times outside every bad-time slice that had an
    unmasked entry at a frequency outside every bad-frequency slice: a time
    listed as bad is never the first or the last good one. *)
Theorem good_time_after_masking
  (bad_time_list bad_freq_list : option (list (list (option Z))))
  (m m' : mask) (t : nat)
  (Hrun : mask_bad bad_time_list bad_freq_list m = (m', inr tt)) :
  good_time m' t ↔
  t < shape0 m ∧ ¬ hit_opt bad_time_list (shape0 m) t ∧
  ∃ f k, entry m t f k = Some false ∧ ¬ hit_opt bad_freq_list (shape1 m) f.
Proof.
  pose proof (mask_bad_where _ _ _ _ Hrun) as Hwhere.
  pose proof Hwhere as (Hs0 & _ & _).
  unfold good_time. rewrite Hs0. split.
  - intros (Ht & f & k & Hfalse).
    apply (entry_false_after _ m m' t f k Hwhere) in Hfalse as [Hfalse Hnot].
    split; [done|]. split; [tauto|]. exists f, k. tauto.
  - intros (Ht & Htime & f & k & Hfalse & Hfreq).
    split; [done|]. exists f, k.
    apply (entry_false_after _ m m' t f k Hwhere). tauto.
Qed.

Lemma good_time_after_masking_witness :
  good_time (mask_bad (Some [[Some 0%Z; Some 1%Z]]) (Some [[Some 0%Z; Some 1%Z]])
               (NdArray 4 (replicate 4 (replicate 4 [false])))).1 0 ↔
  0 < shape0 (NdArray 4 (replicate 4 (replicate 4 [false]))) ∧
  ¬ hit_opt (Some [[Some 0%Z; Some 1%Z]])
      (shape0 (NdArray 4 (replicate 4 (replicate 4 [false])))) 0 ∧
  ∃ f k, entry (NdArray 4 (replicate 4 (replicate 4 [false]))) 0 f k = Some false ∧
         ¬ hit_opt (Some [[Some 0%Z; Some 1%Z]])
             (shape1 (NdArray 4 (replicate 4 (replicate 4 [false])))) f.
Proof.
  exact (good_time_after_masking (Some [[Some 0%Z; Some 1%Z]])
           (Some [[Some 0%Z; Some 1%Z]])
           (NdArray 4 (replicate 4 (replicate 4 [false]))) _ 0
           (surjective_pairing _)).
Defined.

(** *** The limits of the time axis *)

(** X23.  With at most one good time, the limits of the time axis are
    not computed when one of them is left to be read off the axis:
    [IndexError] is raised, for the cut axis is empty. *)
Theorem x_limits_one_good_time (xmin xmax : option float)
  (self_xmin self_xmax : float) (vis_mask : mask) (n_pol : nat)
  (x_axis : list float) (t0 : nat)
  (Hone : ∀ t, good_time vis_mask t → t = t0)
  (Hnone : xmin = None ∨ xmax = None) :
  x_limits xmin xmax self_xmin self_xmax vis_mask n_pol x_axis = inl IndexError.
Proof.
  unfold x_limits, ebind.
  destruct (first_good (bad_times vis_mask)) as [e|st] eqn:H1;
    [by apply first_good_inl in H1 as [-> _]|].
  destruct (last_good (bad_times vis_mask)) as [e|ed] eqn:H2;
    [by apply last_good_inl in H2 as [-> _]|].
  apply first_good_inr in H1 as [H1 _]. apply last_good_inr in H2 as [H2 _].
  apply bad_times_good, Hone in H1. apply bad_times_good, Hone in H2. subst st ed.
  destruct (first_good (bad_freqs vis_mask)) as [e|fst] eqn:H3;
    [by apply first_good_inl in H3 as [-> _]|].
  destruct (last_good (bad_freqs vis_mask)) as [e|fed] eqn:H4;
    [by apply last_good_inl in H4 as [-> _]|].
  destruct (n_pol <? 2); [done|].
  unfold slice_list. rewrite Nat.sub_diag. cbn [take].
  destruct Hnone as [->| ->]; [done|]. by destruct xmin.
Qed.

Lemma x_limits_one_good_time_witness :
  x_limits None None 1e19 (-1e19) one_good_time 2 [0.5; 1.5]%float
  = inl IndexError.
Proof.
  apply (x_limits_one_good_time None None 1e19 (-1e19) one_good_time 2
           [0.5; 1.5]%float 1).
  - intros t [Hlt (f & k & Hentry)]. unfold shape0 in Hlt. simpl in Hlt.
    destruct t as [|[|t]]; [|done|lia].
    destruct f as [|[|f]]; destruct k as [|[|k]]; discriminate.
  - by left.
Defined.

End PlotWaterfallFacts.
